(** * Pesas: minimum test mass and weight-class selection

    A shallow embedding of [pesa_min_y_clase.py] and the properties of its
    arithmetic helpers, of the MPE lookup with log-log interpolation and of
    the class selector.

    Numbers.  A Python [float] is modelled as a real number: arithmetic is
    exact, and rounding, overflow, infinities and NaN are outside the model.
    Comparisons, lookups and control flow are those of the code; a value
    computed with [sqrt], [log10] or [**] is the exact one, so that the
    statements about such values are stated without strict inequalities or
    exact identities that rounding would break.
    What Python raises on reals is kept: [x / 0.0] raises
    [ZeroDivisionError], [math.log10] of a non-positive number raises
    [ValueError], [d[k]] on a missing key raises [KeyError] and a list index
    out of range raises [IndexError]; comparing a float with [None] raises
    [TypeError].

    Dictionaries.  A [dict] is an association list in insertion order, read
    by its first binding of a key; an assignment replaces the value of a
    key in place or appends the key.

    Input and output.  The loader is modelled on the rows that
    [csv.DictReader] yields, with [float] on strings and [str.strip] as
    parameters; [main] is modelled past [parse_args], and a printed line is
    the data it is formatted from. *)

From Stdlib Require Import Ascii String.
From Stdlib Require Import Reals Lra Lia List Bool Arith.
From Stdlib Require Import Sorting.Sorted Sorting.Permutation.
From Equations Require Import Equations.
Import ListNotations.

Open Scope R_scope.

(** ** Exceptions and results *)

Inductive exn : Type :=
| ValueError (msg : string)
| ZeroDivisionError
| KeyError
| IndexError
| TypeError.

Inductive result (A : Type) : Type :=
| Ok (a : A)
| Raise (e : exn).

Arguments Ok {A} a.
Arguments Raise {A} e.

Definition bind {A B : Type} (m : result A) (k : A -> result B) : result B :=
  match m with
  | Ok a => k a
  | Raise e => Raise e
  end.

Notation "x <- m ;; k" := (bind m (fun x => k))
  (at level 61, m at next level, right associativity).

(** The message of the selector's usage error, and of [math.log10]. *)
Definition usage_error : exn :=
  ValueError "Proporciona umbral_std_g (g) o umbral_mpe_mg (mg).".

Definition math_domain_error : exn := ValueError "math domain error".

(** ** Comparisons of floats, as booleans *)

Definition Rltb (x y : R) : bool := if Rlt_dec x y then true else false.
Definition Rleb (x y : R) : bool := if Rle_dec x y then true else false.
Definition Reqb (x y : R) : bool := if Req_dec_T x y then true else false.

(** ** Float operations that can raise *)

(** [x / y]: Python raises on a zero divisor. *)
Definition fdiv (x y : R) : result R :=
  if Reqb y 0 then Raise ZeroDivisionError else Ok (x / y).

(** [math.log10 x]. *)
Definition log10 (x : R) : result R :=
  if Rleb x 0 then Raise math_domain_error else Ok (ln x / ln 10).

(** ** Uncertainty calculator *)

(** [s_efectiva]: the square root's argument is a sum of two squares, so
    [math.sqrt] never raises here, and [math.sqrt(12.0)] is not zero. *)
Definition s_efectiva (s : R) (d : option R) (incluir_resolucion : bool) : R :=
  match incluir_resolucion, d with
  | true, Some d => sqrt (s ^ 2 + (d / sqrt 12) ^ 2)
  | _, _ => s
  end.

Definition masa_minima (s : R) (d : option R) (r_rel k : R)
    (incluir_resolucion : bool) : result R :=
  let s_eff := s_efectiva s d incluir_resolucion in
  fdiv (k * s_eff) r_rel.

(** The defaults of [masa_minima]'s keyword arguments. *)
Definition r_rel_default : R := 0.001.
Definition k_default : R := 2.

(** ** MPE tables *)

(** A row maps a class label to its MPE in mg; a table maps a nominal mass
    in g to its row. *)
Definition row : Type := list (string * R).
Definition table : Type := list (R * row).

(** [r.get(clase)], and with it [clase in r] and [r[clase]] once present. *)
Fixpoint row_get (r : row) (clase : string) : option R :=
  match r with
  | [] => None
  | (c, v) :: r' => if String.eqb c clase then Some v else row_get r' clase
  end.

(** [tabla.get(m)], and with it [m in tabla]. *)
Fixpoint dict_get (tabla : table) (m : R) : option row :=
  match tabla with
  | [] => None
  | (x, r) :: tabla' => if Reqb x m then Some r else dict_get tabla' m
  end.

(** [tabla[m]]. *)
Definition getitem (tabla : table) (m : R) : result row :=
  match dict_get tabla m with
  | Some r => Ok r
  | None => Raise KeyError
  end.

(** [tabla.keys()]. *)
Definition keys (tabla : table) : list R := map fst tabla.

(** A dict holds a key once. *)
Definition dict_wf (tabla : table) : Prop := NoDup (keys tabla).

(** [xs[i]] for a non-negative [i]. *)
Definition index (xs : list R) (i : nat) : result R :=
  match nth_error xs i with
  | Some x => Ok x
  | None => Raise IndexError
  end.

(** [sorted(xs)]: the ascending rearrangement of [xs], by insertion. *)
Fixpoint insert (x : R) (l : list R) : list R :=
  match l with
  | [] => [x]
  | y :: l' => if Rleb x y then x :: l else y :: insert x l'
  end.

Fixpoint sorted (l : list R) : list R :=
  match l with
  | [] => []
  | x :: l' => insert x (sorted l')
  end.

(** [bisect.bisect_left(a, x)]: the loop of the standard library,
    [while lo < hi: mid = (lo + hi) // 2; if a[mid] < x: lo = mid + 1
    else: hi = mid], from [lo = 0] and [hi = len(a)]. *)
Equations? bisect_loop (a : list R) (x : R) (lo hi : nat) : nat
  by wf (hi - lo)%nat lt :=
  bisect_loop a x lo hi with lt_dec lo hi := {
    | left _ =>
        if Rltb (nth ((lo + hi) / 2) a 0) x
        then bisect_loop a x ((lo + hi) / 2 + 1) hi
        else bisect_loop a x lo ((lo + hi) / 2)
    | right _ => lo }.
Proof.
  all: change (fst (Nat.divmod (lo + hi) 1 0 1)) with ((lo + hi) / 2)%nat;
       pose proof (Nat.div_mod_eq (lo + hi) 2) as Hdm;
       pose proof (Nat.mod_upper_bound (lo + hi) 2 ltac:(lia)); lia.
Qed.

Definition bisect_left (a : list R) (x : R) : nat :=
  bisect_loop a x 0 (length a).

(** The built-in example table and class order. *)
Definition MPE_TABLE_EXAMPLE_MG : table :=
  [ (1,     [("E2", 1);   ("F1", 3);   ("F2", 10);   ("M1", 50);    ("M2", 150);   ("M3", 500)]);
    (2,     [("E2", 1.2); ("F1", 3.5); ("F2", 12);   ("M1", 60);    ("M2", 180);   ("M3", 600)]);
    (5,     [("E2", 1.5); ("F1", 4);   ("F2", 15);   ("M1", 75);    ("M2", 225);   ("M3", 750)]);
    (10,    [("E2", 2);   ("F1", 5);   ("F2", 20);   ("M1", 100);   ("M2", 300);   ("M3", 1000)]);
    (20,    [("E2", 3);   ("F1", 8);   ("F2", 30);   ("M1", 150);   ("M2", 450);   ("M3", 1500)]);
    (50,    [("E2", 5);   ("F1", 12);  ("F2", 50);   ("M1", 250);   ("M2", 750);   ("M3", 2500)]);
    (100,   [("E2", 8);   ("F1", 20);  ("F2", 80);   ("M1", 400);   ("M2", 1200);  ("M3", 4000)]);
    (200,   [("E2", 12);  ("F1", 30);  ("F2", 120);  ("M1", 600);   ("M2", 1800);  ("M3", 6000)]);
    (500,   [("E2", 20);  ("F1", 50);  ("F2", 200);  ("M1", 1000);  ("M2", 3000);  ("M3", 10000)]);
    (1000,  [("E2", 30);  ("F1", 80);  ("F2", 300);  ("M1", 1500);  ("M2", 4500);  ("M3", 15000)]);
    (2000,  [("E2", 50);  ("F1", 120); ("F2", 500);  ("M1", 2500);  ("M2", 7500);  ("M3", 25000)]);
    (5000,  [("E2", 80);  ("F1", 200); ("F2", 800);  ("M1", 4000);  ("M2", 12000); ("M3", 40000)]);
    (10000, [("E2", 120); ("F1", 300); ("F2", 1200); ("M1", 6000);  ("M2", 18000); ("M3", 60000)]);
    (20000, [("E2", 200); ("F1", 500); ("F2", 2000); ("M1", 10000); ("M2", 30000); ("M3", 100000)]);
    (50000, [("E2", 300); ("F1", 800); ("F2", 3000); ("M1", 15000); ("M2", 45000); ("M3", 150000)]) ]%string.

Definition CLASSES_ORDER : list string := ["E2"; "F1"; "F2"; "M1"; "M2"; "M3"]%string.

(** ** Class selector *)

(** Lines 103-104: the log-log interpolation, in Python's evaluation order. *)
Definition interpolar (mass_g x0 x1 y0 y1 : R) : result R :=
  lm <- log10 mass_g ;;
  l0 <- log10 x0 ;;
  l1 <- log10 x1 ;;
  l0' <- log10 x0 ;;
  t <- fdiv (lm - l0) (l1 - l0') ;;
  ly0 <- log10 y0 ;;
  ly1 <- log10 y1 ;;
  ly0' <- log10 y0 ;;
  Ok (Rpower 10 (ly0 + t * (ly1 - ly0'))).

(** [mass_g in tabla and clase in tabla[mass_g]], with the value found. *)
Definition exact_match (mass_g : R) (clase : string) (tabla : table) : option R :=
  match dict_get tabla mass_g with
  | Some r => row_get r clase
  | None => None
  end.

Definition mpe_mg_para (mass_g : R) (clase : string) (tabla : table)
  : result (option R) :=
  match exact_match mass_g clase tabla with
  | Some v => Ok (Some v)
  | None =>
      let xs := sorted (keys tabla) in
      match xs with
      | [] => Ok None
      | x_first :: _ =>
          if Rltb mass_g x_first || Rltb (last xs 0) mass_g then Ok None
          else
            let i := bisect_left xs mass_g in
            if (i =? 0)%nat || (i =? length xs)%nat then Ok None
            else
              x0 <- index xs (i - 1) ;;
              x1 <- index xs i ;;
              r0 <- getitem tabla x0 ;;
              r1 <- getitem tabla x1 ;;
              match row_get r0 clase, row_get r1 clase with
              | Some y0, Some y1 =>
                  v <- interpolar mass_g x0 x1 y0 y1 ;;
                  Ok (Some v)
              | _, _ => Ok None
              end
      end
  end.

(** The [for] loop of [seleccionar_clase_pesa]. *)
Fixpoint scan (mass_g : R) (umbral_std_g umbral_mpe_mg : option R)
    (tabla : table) (clases : list string) : result (option string) :=
  match clases with
  | [] => Ok None
  | clase :: rest =>
      mpe <- mpe_mg_para mass_g clase tabla ;;
      match mpe with
      | None => scan mass_g umbral_std_g umbral_mpe_mg tabla rest
      | Some mpe_mg =>
          match umbral_mpe_mg with
          | Some um =>
              if Rleb mpe_mg um then Ok (Some clase)
              else scan mass_g umbral_std_g umbral_mpe_mg tabla rest
          | None =>
              let u_std_g := mpe_mg / 1000 / sqrt 3 in
              match umbral_std_g with
              | Some us =>
                  if Rleb u_std_g us then Ok (Some clase)
                  else scan mass_g umbral_std_g umbral_mpe_mg tabla rest
              | None => Raise TypeError
              end
          end
      end
  end.

(** [tabla_mpe_mg or MPE_TABLE_EXAMPLE_MG]: [None] and the empty dict are
    both falsy. *)
Definition or_example (tabla_mpe_mg : option table) : table :=
  match tabla_mpe_mg with
  | Some ((_ :: _) as t) => t
  | _ => MPE_TABLE_EXAMPLE_MG
  end.

Definition seleccionar_clase_pesa (mass_g : R)
    (umbral_std_g umbral_mpe_mg : option R) (tabla_mpe_mg : option table)
    (clases_orden : list string) : result (option string) :=
  let tabla := or_example tabla_mpe_mg in
  match umbral_mpe_mg, umbral_std_g with
  | None, None => Raise usage_error
  | _, _ => scan mass_g umbral_std_g umbral_mpe_mg tabla clases_orden
  end.

(** ** CSV loader *)

(** A row as [csv.DictReader] yields it, in the order of [row.items()]: a
    header name with the string of its field, or with [None] when the line
    is too short to have that field; a line with more fields than the
    header carries the surplus as a list under the key [None]. *)
Inductive field : Type :=
| Field (k : string) (v : option string)
| Rest (surplus : list string).

Definition csv_row : Type := list field.

(** [row[k]] on such a row; the outer [None] is a missing key. *)
Fixpoint csv_get (fields : csv_row) (k : string) : option (option string) :=
  match fields with
  | [] => None
  | Field k' v :: fields' => if String.eqb k' k then Some v else csv_get fields' k
  | Rest _ :: fields' => csv_get fields' k
  end.

(** [r[clase] = v]: a key already present keeps its place. *)
Fixpoint row_set (r : row) (clase : string) (v : R) : row :=
  match r with
  | [] => [(clase, v)]
  | (c, w) :: r' =>
      if String.eqb c clase then (c, v) :: r' else (c, w) :: row_set r' clase v
  end.

(** [tabla[m] = r]. *)
Fixpoint dict_set (tabla : table) (m : R) (r : row) : table :=
  match tabla with
  | [] => [(m, r)]
  | (x, r') :: tabla' =>
      if Reqb x m then (x, r) :: tabla' else (x, r') :: dict_set tabla' m r
  end.

Section Loader.

(** [float(s)] on a string, with the exception it raises on a string that
    is no number, and [str.strip]: both are Python's own. *)
Variable float_of_str : string -> result R.
Variable strip : string -> string.

(** The inner loop of [cargar_tabla_mpe_csv] (lines 83-86), on the row
    dict [table[m]] built so far.  In [table[m][k.strip()] = float(v)]
    the right-hand side is evaluated first, so the surplus list of a long
    line fails in [float] with [TypeError]; its [str] is never blank. *)
Fixpoint load_cells (fields : csv_row) (acc : row) : result row :=
  match fields with
  | [] => Ok acc
  | Field k v :: fields' =>
      if String.eqb k "mass_g" then load_cells fields' acc
      else
        match v with
        | None => load_cells fields' acc
        | Some s =>
            if String.eqb (strip s) "" then load_cells fields' acc
            else
              x <- float_of_str s ;;
              load_cells fields' (row_set acc (strip k) x)
        end
  | Rest _ :: _ => Raise TypeError
  end.

(** The outer loop (lines 80-86): [float(None)] is a [TypeError]. *)
Fixpoint load_rows (rows : list csv_row) (tabla : table) : result table :=
  match rows with
  | [] => Ok tabla
  | fields :: rows' =>
      match csv_get fields "mass_g" with
      | None => Raise KeyError
      | Some None => Raise TypeError
      | Some (Some s) =>
          m <- float_of_str s ;;
          r <- load_cells fields [] ;;
          load_rows rows' (dict_set tabla m r)
      end
  end.

(** [cargar_tabla_mpe_csv], on the rows that [csv.DictReader] reads from
    the file. *)
Definition cargar_tabla_mpe_csv (rows : list csv_row) : result table :=
  load_rows rows [].

(** ** Command line *)

Inductive calc_mode : Type := Mmin | Clase | Both.

(** The namespace [parse_args] returns.  [a_mpe_csv] is [None] when
    [--mpe-csv] is absent or empty, and otherwise the rows of the file. *)
Record args : Type := mk_args {
  a_calc : calc_mode;
  a_s : option R;
  a_d : option R;
  a_k : R;
  a_rrel : R;
  a_mass_g : option R;
  a_tur : option R;
  a_umbral_std_g : option R;
  a_umbral_mpe_mg : option R;
  a_mpe_csv : option (list csv_row)
}.

(** The threshold a recommendation is reported with. *)
Inductive basis : Type :=
| info_std (umbral_std_g : R)
| info_mpe (umbral_mpe_mg : R).

(** The lines [main] prints, by the values they are formatted from; the
    [err_] lines go to the standard error. *)
Inductive line : Type :=
| err_mmin_s
| out_mmin (mmin k r_rel s : R) (d : option R)
| err_clase_mass
| err_tur
| err_umbral
| out_no_class
| out_class (mass_g : R) (clase : string) (info : basis).

(** Lines 145-149: [None] when the run goes on. *)
Definition main_mmin (a : args) : list line * option (result Z) :=
  match a_calc a with
  | Clase => ([], None)
  | Mmin | Both =>
      match a_s a with
      | None => ([err_mmin_s], Some (Ok 2%Z))
      | Some s =>
          match masa_minima s (a_d a) (a_rrel a) (a_k a) true with
          | Raise e => ([], Some (Raise e))
          | Ok mmin => ([out_mmin mmin (a_k a) (a_rrel a) s (a_d a)], None)
          end
      end
  end.

(** Lines 164-169. *)
Definition main_select (mass_g : R) (umbral_std_g umbral_mpe_mg : option R)
    (tabla : option table) : list line * result Z :=
  match seleccionar_clase_pesa mass_g umbral_std_g umbral_mpe_mg tabla
          CLASSES_ORDER with
  | Raise e => ([], Raise e)
  | Ok None => ([out_no_class], Ok 0%Z)
  | Ok (Some clase) =>
      match umbral_std_g, umbral_mpe_mg with
      | Some us, _ => ([out_class mass_g clase (info_std us)], Ok 0%Z)
      | None, Some um => ([out_class mass_g clase (info_mpe um)], Ok 0%Z)
      | None, None => ([], Raise TypeError)
      end
  end.

(** Lines 161-169, with the thresholds settled. *)
Definition main_umbral (mass_g : R) (umbral_std_g umbral_mpe_mg : option R)
    (tabla : option table) : list line * result Z :=
  match umbral_std_g, umbral_mpe_mg with
  | None, None => ([err_umbral], Ok 5%Z)
  | _, _ => main_select mass_g umbral_std_g umbral_mpe_mg tabla
  end.

(** Lines 151-170. *)
Definition main_clase (a : args) (tabla : option table) : list line * result Z :=
  match a_calc a with
  | Mmin => ([], Ok 0%Z)
  | Clase | Both =>
      match a_mass_g a with
      | None => ([err_clase_mass], Ok 3%Z)
      | Some mass_g =>
          match a_umbral_std_g a, a_tur a with
          | None, Some tur =>
              match a_s a, a_d a with
              | Some s, Some d =>
                  let u_bal := sqrt (s ^ 2 + (d / sqrt 12) ^ 2) in
                  match fdiv u_bal tur with
                  | Raise e => ([], Raise e)
                  | Ok u =>
                      main_umbral mass_g (Some u) (a_umbral_mpe_mg a) tabla
                  end
              | _, _ => ([err_tur], Ok 4%Z)
              end
          | umbral_std_g, _ =>
              main_umbral mass_g umbral_std_g (a_umbral_mpe_mg a) tabla
          end
      end
  end.

(** [main], past [parse_args]: the lines printed and the exit code, or
    the exception that ends the run. *)
Definition main (a : args) : list line * result Z :=
  match (match a_mpe_csv a with
         | Some rows => t <- cargar_tabla_mpe_csv rows ;; Ok (Some t)
         | None => Ok None
         end) with
  | Raise e => ([], Raise e)
  | Ok tabla =>
      match main_mmin a with
      | (out, Some r) => (out, r)
      | (out, None) =>
          let (out', r) := main_clase a tabla in (out ++ out', r)
      end
  end.

End Loader.

(** A parser of unsigned decimal integers and a [strip] of blanks, to run
    the loader on concrete rows: they agree with [float] and [str.strip] on
    the strings used below. *)
Definition digit_of (c : ascii) : option Z :=
  let n := Z.of_nat (nat_of_ascii c) in
  if ((48 <=? n) && (n <=? 57))%Z then Some (n - 48)%Z else None.

Fixpoint digits_value (s : string) (acc : Z) : option Z :=
  match s with
  | EmptyString => Some acc
  | String c s' =>
      match digit_of c with
      | Some dgt => digits_value s' (10 * acc + dgt)%Z
      | None => None
      end
  end.

Definition float_of_digits (s : string) : result R :=
  match s with
  | EmptyString => Raise (ValueError "could not convert string to float")
  | _ =>
      match digits_value s 0 with
      | Some n => Ok (IZR n)
      | None => Raise (ValueError "could not convert string to float")
      end
  end.

Fixpoint lstrip_blanks (s : string) : string :=
  match s with
  | String " "%char s' => lstrip_blanks s'
  | _ => s
  end.

Fixpoint rstrip_blanks (s : string) : string :=
  match s with
  | EmptyString => EmptyString
  | String c s' =>
      match rstrip_blanks s', c with
      | EmptyString, " "%char => EmptyString
      | t, _ => String c t
      end
  end.

Definition strip_blanks (s : string) : string := rstrip_blanks (lstrip_blanks s).

(** ** Vocabulary of the statements *)

(** The smallest and the largest key of a table; none in an empty one. *)
Definition key_min (tabla : table) : option R :=
  match keys tabla with
  | [] => None
  | x :: l => Some (fold_right Rmin x l)
  end.

Definition key_max (tabla : table) : option R :=
  match keys tabla with
  | [] => None
  | x :: l => Some (fold_right Rmax x l)
  end.

(** The class has no value in any row. *)
Definition class_absent (clase : string) (tabla : table) : Prop :=
  Forall (fun kv => row_get (snd kv) clase = None) tabla.

(** The decimal logarithm, on the positive reals. *)
Definition lg (x : R) : R := ln x / ln 10.

(** The log-log interpolant through [(x0, y0)] and [(x1, y1)] at [mass_g]. *)
Definition loglog (mass_g x0 x1 y0 y1 : R) : R :=
  let t := (lg mass_g - lg x0) / (lg x1 - lg x0) in
  Rpower 10 (lg y0 + t * (lg y1 - lg y0)).

(** The threshold test on an MPE value: against [threshold_mpe_mg] when it
    is supplied, else on the standard uncertainty of a rectangular
    distribution against [threshold_std_g]. *)
Definition meets (umbral_std_g umbral_mpe_mg : option R) (mpe_mg : R) : Prop :=
  match umbral_mpe_mg, umbral_std_g with
  | Some um, _ => mpe_mg <= um
  | None, Some us => mpe_mg / 1000 / sqrt 3 <= us
  | None, None => False
  end.

(** The class has an MPE at this mass, and it meets the threshold. *)
Definition qualifies (mass_g : R) (umbral_std_g umbral_mpe_mg : option R)
    (tabla : table) (clase : string) : Prop :=
  exists v, mpe_mg_para mass_g clase tabla = Ok (Some v) /\
            meets umbral_std_g umbral_mpe_mg v.



(** Before-or-at in the class order: [c'] stands no later than [c]. *)
Definition no_later (clases : list string) (c' c : string) : Prop :=
  exists pre post, clases = pre ++ c :: post /\ In c' (pre ++ [c]).

(** A cell that the loader records: a class column with a string that is
    not blank. *)
Definition loaded_cell (strip : string -> string) (fields : csv_row)
    (k s : string) : Prop :=
  In (Field k (Some s)) fields /\ k <> "mass_g"%string /\ strip s <> ""%string.

(** The mass column of a row holds the number [m]. *)
Definition row_mass (float_of_str : string -> result R) (fields : csv_row)
    (m : R) : Prop :=
  exists s, csv_get fields "mass_g" = Some (Some s) /\ float_of_str s = Ok m.

(** The file of [--mpe-csv], if any, loads. *)
Definition loads (float_of_str : string -> result R) (strip : string -> string)
    (a : args) : Prop :=
  match a_mpe_csv a with
  | None => True
  | Some rows => exists t, cargar_tabla_mpe_csv float_of_str strip rows = Ok t
  end.

(** The minimum-mass stage of [main] is skipped, or prints its line. *)
Definition mmin_passes (a : args) : Prop :=
  a_calc a = Clase \/ exists s, a_s a = Some s /\ a_rrel a <> 0.

(** The same arguments with another [--umbral-std-g], [--tur] or
    [--mpe-csv]. *)
Definition with_umbral_std_g (a : args) (u : option R) : args :=
  mk_args (a_calc a) (a_s a) (a_d a) (a_k a) (a_rrel a) (a_mass_g a) (a_tur a)
    u (a_umbral_mpe_mg a) (a_mpe_csv a).

Definition with_tur (a : args) (tur : option R) : args :=
  mk_args (a_calc a) (a_s a) (a_d a) (a_k a) (a_rrel a) (a_mass_g a) tur
    (a_umbral_std_g a) (a_umbral_mpe_mg a) (a_mpe_csv a).


(** The arguments of [python pesa_min_y_clase.py --calc clase --mass-g 2000
    --umbral-mpe-mg 60], with the defaults of the parser. *)
Definition args_example : args :=
  mk_args Clase None None k_default r_rel_default (Some 2000) None None (Some 60)
    None.

(** A magnitude at which Python's [x**2] does not overflow. *)
Definition moderate (x : option R) : Prop :=
  match x with
  | Some v => Rabs v <= 10 ^ 150
  | None => True
  end.

(** * Properties *)

(** ** Comparisons *)

Lemma Rltb_true x y : x < y -> Rltb x y = true.
Proof. intros H; unfold Rltb; destruct (Rlt_dec x y); [reflexivity | contradiction]. Qed.

Lemma Rltb_false x y : y <= x -> Rltb x y = false.
Proof. intros H; unfold Rltb; destruct (Rlt_dec x y); [lra | reflexivity]. Qed.

Lemma Rleb_true x y : x <= y -> Rleb x y = true.
Proof. intros H; unfold Rleb; destruct (Rle_dec x y); [reflexivity | contradiction]. Qed.

Lemma Rleb_false x y : y < x -> Rleb x y = false.
Proof. intros H; unfold Rleb; destruct (Rle_dec x y); [lra | reflexivity]. Qed.

Lemma Reqb_true x y : x = y -> Reqb x y = true.
Proof. intros H; unfold Reqb; destruct (Req_dec_T x y); [reflexivity | contradiction]. Qed.

Lemma Reqb_false x y : x <> y -> Reqb x y = false.
Proof. intros H; unfold Reqb; destruct (Req_dec_T x y); [contradiction | reflexivity]. Qed.

Lemma Rltb_spec x y : Rltb x y = true <-> x < y.
Proof. unfold Rltb; destruct (Rlt_dec x y); split; intros; auto; discriminate. Qed.

Lemma Rleb_spec x y : Rleb x y = true <-> x <= y.
Proof. unfold Rleb; destruct (Rle_dec x y); split; intros; auto; discriminate. Qed.

Lemma Reqb_spec x y : Reqb x y = true <-> x = y.
Proof. unfold Reqb; destruct (Req_dec_T x y); split; intros; auto; discriminate. Qed.

Lemma Rltb_nlt x y : Rltb x y = false <-> y <= x.
Proof.
  split; [|apply Rltb_false].
  unfold Rltb; destruct (Rlt_dec x y); [discriminate | lra].
Qed.

(** Resolve the comparisons of a goal whose operands are numerals. *)
Ltac cmp_step :=
  first [ rewrite Reqb_true by lra | rewrite Reqb_false by lra
        | rewrite Rltb_true by lra | rewrite Rltb_false by lra
        | rewrite Rleb_true by lra | rewrite Rleb_false by lra ].
Ltac cmp := repeat (cbn; cmp_step); cbn.

(** ** Uncertainty calculator *)

Lemma sqrt12_pos : 0 < sqrt 12.
Proof. apply sqrt_lt_R0; lra. Qed.

Lemma s_efectiva_radicand_nonneg s d : 0 <= s ^ 2 + (d / sqrt 12) ^ 2.
Proof. nra. Qed.

Lemma s_efectiva_pos s d i : 0 < s -> 0 < s_efectiva s d i.
Proof.
  intros Hs; unfold s_efectiva; destruct i, d as [d|]; try assumption.
  apply sqrt_lt_R0.
  assert (0 <= (d / sqrt 12) ^ 2) by nra. nra.
Qed.

Lemma s_efectiva_incr_s s1 s2 d :
  0 < s1 -> s1 < s2 -> s_efectiva s1 (Some d) true < s_efectiva s2 (Some d) true.
Proof.
  intros H0 H; cbn. apply sqrt_lt_1_alt. split; [apply s_efectiva_radicand_nonneg | nra].
Qed.

Lemma s_efectiva_incr_d s d1 d2 :
  0 <= d1 -> d1 < d2 -> s_efectiva s (Some d1) true < s_efectiva s (Some d2) true.
Proof.
  intros H0 H; cbn. apply sqrt_lt_1_alt. split; [apply s_efectiva_radicand_nonneg |].
  pose proof sqrt12_pos as Hq.
  assert (Hd : d1 / sqrt 12 < d2 / sqrt 12).
  { unfold Rdiv; apply Rmult_lt_compat_r; [apply Rinv_0_lt_compat; exact Hq | exact H]. }
  assert (0 <= d1 / sqrt 12).
  { unfold Rdiv; apply Rmult_le_pos; [exact H0 | left; apply Rinv_0_lt_compat; exact Hq]. }
  nra.
Qed.

Lemma s_efectiva_mono_s s1 s2 d :
  0 < s1 -> s1 <= s2 -> s_efectiva s1 (Some d) true <= s_efectiva s2 (Some d) true.
Proof.
  intros H0 H; cbn. apply sqrt_le_1_alt. nra.
Qed.

Lemma s_efectiva_mono_d s d1 d2 :
  0 <= d1 -> d1 <= d2 -> s_efectiva s (Some d1) true <= s_efectiva s (Some d2) true.
Proof.
  intros H0 H; cbn. apply sqrt_le_1_alt.
  pose proof sqrt12_pos as Hq.
  assert (Hd : d1 / sqrt 12 <= d2 / sqrt 12).
  { unfold Rdiv; apply Rmult_le_compat_r; [left; apply Rinv_0_lt_compat; exact Hq | exact H]. }
  assert (0 <= d1 / sqrt 12).
  { unfold Rdiv; apply Rmult_le_pos; [exact H0 | left; apply Rinv_0_lt_compat; exact Hq]. }
  nra.
Qed.

Lemma masa_minima_value s d r_rel k i :
  r_rel <> 0 -> masa_minima s d r_rel k i = Ok (k * s_efectiva s d i / r_rel).
Proof. intros H; unfold masa_minima, fdiv; rewrite Reqb_false by exact H; reflexivity. Qed.

(** ** Lookup in the example table *)

Lemma example_row_2000 :
  dict_get MPE_TABLE_EXAMPLE_MG 2000 =
  Some [("E2", 50); ("F1", 120); ("F2", 500); ("M1", 2500); ("M2", 7500);
        ("M3", 25000)]%string.
Proof. unfold MPE_TABLE_EXAMPLE_MG. cmp. reflexivity. Qed.

Lemma mpe_exact mass_g clase tabla r v :
  dict_get tabla mass_g = Some r -> row_get r clase = Some v ->
  mpe_mg_para mass_g clase tabla = Ok (Some v).
Proof.
  intros Hr Hv; unfold mpe_mg_para, exact_match; rewrite Hr, Hv; reflexivity.
Qed.

(** ** [sorted] sorts *)

Lemma insert_perm x l : Permutation (insert x l) (x :: l).
Proof.
  induction l as [|y l IH]; cbn; [reflexivity |].
  destruct (Rleb x y); [reflexivity |].
  rewrite IH. apply perm_swap.
Qed.

Lemma sorted_perm l : Permutation (sorted l) l.
Proof.
  induction l as [|x l IH]; cbn; [constructor |].
  rewrite insert_perm. now constructor.
Qed.

Lemma sorted_In x l : In x (sorted l) <-> In x l.
Proof.
  split; apply Permutation_in; [apply sorted_perm | symmetry; apply sorted_perm].
Qed.

Lemma sorted_length l : length (sorted l) = length l.
Proof. apply Permutation_length, sorted_perm. Qed.

Lemma insert_StronglySorted x l :
  StronglySorted Rle l -> StronglySorted Rle (insert x l).
Proof.
  induction 1 as [|y l Hs IH Hy]; cbn.
  - repeat constructor.
  - destruct (Rleb x y) eqn:E.
    + apply Rleb_spec in E. constructor; [now constructor |].
      constructor; [exact E |].
      eapply Forall_impl; [|exact Hy]. intros z Hz; cbn in Hz; lra.
    + assert (y < x) by (unfold Rleb in E; destruct (Rle_dec x y); [discriminate | lra]).
      constructor; [exact IH |].
      eapply Permutation_Forall; [symmetry; apply insert_perm |].
      constructor; [lra | exact Hy].
Qed.

Lemma sorted_StronglySorted l : StronglySorted Rle (sorted l).
Proof.
  induction l as [|x l IH]; cbn; [constructor | now apply insert_StronglySorted].
Qed.

(** Sorting an ascending list changes nothing. *)
Lemma sorted_id l : StronglySorted Rle l -> sorted l = l.
Proof.
  induction 1 as [|x l Hs IH Hx]; cbn; [reflexivity |].
  rewrite IH. destruct l as [|y l]; [reflexivity |].
  cbn. inversion Hx; subst. now rewrite Rleb_true.
Qed.

Lemma StronglySorted_nth l :
  StronglySorted Rle l ->
  forall j k, (j <= k < length l)%nat -> nth j l 0 <= nth k l 0.
Proof.
  induction 1 as [|x l Hs IH Hx]; intros j k Hjk; cbn in Hjk; [lia |].
  destruct j as [|j], k as [|k]; cbn; try lia; try lra.
  - rewrite Forall_forall in Hx. apply Hx, nth_In. lia.
  - apply IH. lia.
Qed.

(** ** [bisect_left] on an ascending list

    The index returned splits the list into the elements below [x] and the
    elements that are at least [x]. *)

Lemma bisect_loop_spec a x lo hi :
  StronglySorted Rle a ->
  (lo <= hi <= length a)%nat ->
  (forall j, (j < lo)%nat -> nth j a 0 < x) ->
  (forall j, (hi <= j < length a)%nat -> x <= nth j a 0) ->
  (lo <= bisect_loop a x lo hi <= hi)%nat /\
  (forall j, (j < bisect_loop a x lo hi)%nat -> nth j a 0 < x) /\
  (forall j, (bisect_loop a x lo hi <= j < length a)%nat -> x <= nth j a 0).
Proof.
  intros Hs.
  funelim (bisect_loop a x lo hi); intros Hb Hlo Hhi.
  - clear Heqcall Heq.
    assert (Hmid : (lo <= (lo + hi) / 2 < hi)%nat).
    { pose proof (Nat.div_mod_eq (lo + hi) 2).
      pose proof (Nat.mod_upper_bound (lo + hi) 2 ltac:(lia)). lia. }
    destruct (Rltb (nth ((lo + hi) / 2) a 0) x) eqn:E.
    + apply Rltb_spec in E.
      destruct (H Hs) as (B & L & U); try lia; auto.
      * intros j Hj.
        apply Rle_lt_trans with (nth ((lo + hi) / 2) a 0); [|exact E].
        apply StronglySorted_nth; [exact Hs | lia].
      * repeat split; try lia; auto.
    + apply Rltb_nlt in E.
      destruct (H0 Hs) as (B & L & U); try lia; auto.
      * intros j Hj.
        apply Rle_trans with (nth ((lo + hi) / 2) a 0); [exact E |].
        apply StronglySorted_nth; [exact Hs | lia].
      * repeat split; try lia; auto.
  - repeat split; try lia; auto.
    intros j Hj. apply Hhi. lia.
Qed.

Lemma bisect_left_spec a x :
  StronglySorted Rle a ->
  (bisect_left a x <= length a)%nat /\
  (forall j, (j < bisect_left a x)%nat -> nth j a 0 < x) /\
  (forall j, (bisect_left a x <= j < length a)%nat -> x <= nth j a 0).
Proof.
  intros Hs. unfold bisect_left.
  destruct (bisect_loop_spec a x 0 (length a) Hs) as (B & L & U);
    try lia; intros; try lia.
  repeat split; auto; lia.
Qed.

(** ** Dictionaries and indexing *)

Lemma dict_get_In_keys tabla m r : dict_get tabla m = Some r -> In m (keys tabla).
Proof.
  induction tabla as [|[x r'] tabla IH]; cbn; [discriminate |].
  destruct (Reqb x m) eqn:E; [apply Reqb_spec in E; now left | right; auto].
Qed.

Lemma dict_get_In tabla m r : dict_get tabla m = Some r -> In (m, r) tabla.
Proof.
  induction tabla as [|[x r'] tabla IH]; cbn; [discriminate |].
  destruct (Reqb x m) eqn:E; [|right; auto].
  apply Reqb_spec in E. intros [= ->]. left; now subst.
Qed.

Lemma In_keys_dict_get tabla m :
  In m (keys tabla) -> exists r, dict_get tabla m = Some r.
Proof.
  induction tabla as [|[x r'] tabla IH]; cbn; [tauto |].
  intros [H | H].
  - exists r'. now rewrite Reqb_true.
  - destruct (Reqb x m); [now exists r' | auto].
Qed.

Lemma index_nth xs i : (i < length xs)%nat -> index xs i = Ok (nth i xs 0).
Proof.
  intros H; unfold index. now rewrite (nth_error_nth' xs 0 H).
Qed.

Lemma last_nth (xs : list R) : last xs 0 = nth (length xs - 1) xs 0.
Proof.
  induction xs as [|x [|y xs] IH]; try reflexivity.
  change (last (x :: y :: xs) 0) with (last (y :: xs) 0).
  rewrite IH. cbn. now rewrite Nat.sub_0_r.
Qed.

(** ** The paths of [mpe_mg_para] *)

(** Past the exact match, the function answers [None] unless [bisect_left]
    lands strictly inside the sorted keys; it then reads the two rows at the
    keys around that index, which exist. *)
Lemma mpe_mg_para_inside mass_g clase tabla :
  exact_match mass_g clase tabla = None ->
  let xs := sorted (keys tabla) in
  let i := bisect_left xs mass_g in
  mpe_mg_para mass_g clase tabla = Ok None \/
  (0 < i < length xs)%nat /\
  nth 0 xs 0 <= mass_g <= last xs 0 /\
  exists r0 r1,
    dict_get tabla (nth (i - 1) xs 0) = Some r0 /\
    dict_get tabla (nth i xs 0) = Some r1 /\
    mpe_mg_para mass_g clase tabla =
      match row_get r0 clase, row_get r1 clase with
      | Some y0, Some y1 =>
          v <- interpolar mass_g (nth (i - 1) xs 0) (nth i xs 0) y0 y1 ;;
          Ok (Some v)
      | _, _ => Ok None
      end.
Proof.
  intros Hex xs i. unfold mpe_mg_para. rewrite Hex.
  pose proof (sorted_StronglySorted (keys tabla)) as Hs.
  assert (Hin : forall j, (j < length xs)%nat ->
                exists r, dict_get tabla (nth j xs 0) = Some r).
  { intros j Hj. apply In_keys_dict_get, (sorted_In _ (keys tabla)), nth_In, Hj. }
  destruct (bisect_left_spec xs mass_g Hs) as (Hi & _ & _).
  fold xs i in Hs, Hi |- *. rewrite (last_nth xs) in *.
  clearbody i. clearbody xs.
  destruct xs as [|x_first xs']; [now left |].
  set (xs := x_first :: xs') in *.
  destruct (Rltb mass_g x_first) eqn:E1; [now left |].
  destruct (Rltb (nth (length xs - 1) xs 0) mass_g) eqn:E2; [now left |].
  destruct (i =? 0)%nat eqn:E3; [now left |].
  destruct (i =? length xs)%nat eqn:E4; [now left |].
  cbn [orb].
  apply Nat.eqb_neq in E3, E4.
  destruct (Hin (i - 1)%nat) as [r0 Hr0]; [lia |].
  destruct (Hin i) as [r1 Hr1]; [lia |].
  right. split; [lia |]. split.
  { apply Rltb_nlt in E1, E2. change (nth 0 xs 0) with x_first. lra. }
  exists r0, r1. split; [exact Hr0 |]. split; [exact Hr1 |].
  rewrite !index_nth by lia. cbn [bind].
  unfold getitem. rewrite Hr0, Hr1. cbn [bind]. reflexivity.
Qed.

Lemma exact_match_not_key mass_g clase tabla :
  ~ In mass_g (keys tabla) -> exact_match mass_g clase tabla = None.
Proof.
  intros H; unfold exact_match.
  destruct (dict_get tabla mass_g) eqn:E; [|reflexivity].
  now apply dict_get_In_keys in E.
Qed.

Lemma fold_Rmin_le x l y : In y (x :: l) -> fold_right Rmin x l <= y.
Proof.
  induction l as [|z l IH]; cbn.
  - intros [-> | []]; lra.
  - intros [-> | [-> | H]].
    + eapply Rle_trans; [apply Rmin_r | apply IH; now left].
    + apply Rmin_l.
    + eapply Rle_trans; [apply Rmin_r | apply IH; now right].
Qed.

Lemma fold_Rmax_ge x l y : In y (x :: l) -> y <= fold_right Rmax x l.
Proof.
  induction l as [|z l IH]; cbn.
  - intros [-> | []]; lra.
  - intros [-> | [-> | H]].
    + eapply Rle_trans; [apply IH; now left | apply Rmax_r].
    + apply Rmax_l.
    + eapply Rle_trans; [apply IH; now right | apply Rmax_r].
Qed.

Lemma key_min_le tabla lo x : key_min tabla = Some lo -> In x (keys tabla) -> lo <= x.
Proof.
  unfold key_min. destruct (keys tabla) as [|k l]; [discriminate |].
  intros [= <-]. apply fold_Rmin_le.
Qed.

Lemma key_max_ge tabla hi x : key_max tabla = Some hi -> In x (keys tabla) -> x <= hi.
Proof.
  unfold key_max. destruct (keys tabla) as [|k l]; [discriminate |].
  intros [= <-]. apply fold_Rmax_ge.
Qed.

(** A mass below every key, or above every key, is not available. *)
Lemma mpe_outside mass_g clase tabla :
  (forall x, In x (keys tabla) -> mass_g < x) \/
  (forall x, In x (keys tabla) -> x < mass_g) ->
  mpe_mg_para mass_g clase tabla = Ok None.
Proof.
  intros Hout.
  assert (Hk : ~ In mass_g (keys tabla)).
  { intros Hin. destruct Hout as [H | H]; apply H in Hin; lra. }
  destruct (mpe_mg_para_inside mass_g clase tabla (exact_match_not_key _ _ _ Hk))
    as [H | (Hi & Hr & _)]; [exact H | exfalso].
  rewrite last_nth in Hr.
  set (xs := sorted (keys tabla)) in *.
  assert (Hx : forall j, (j < length xs)%nat -> In (nth j xs 0) (keys tabla))
    by (intros j Hj; apply sorted_In; fold xs; now apply nth_In).
  assert (H0 := Hx 0%nat ltac:(lia)).
  assert (H1 := Hx (length xs - 1)%nat ltac:(lia)).
  destruct Hout as [H | H]; [apply H in H0 | apply H in H1]; lra.
Qed.

(** A class that no row holds is not available at any mass. *)
Lemma mpe_class_absent mass_g clase tabla :
  class_absent clase tabla -> mpe_mg_para mass_g clase tabla = Ok None.
Proof.
  intros Habs. unfold class_absent in Habs. rewrite Forall_forall in Habs.
  assert (Hrow : forall m r, dict_get tabla m = Some r -> row_get r clase = None).
  { intros m r Hr. apply dict_get_In in Hr. exact (Habs _ Hr). }
  assert (Hex : exact_match mass_g clase tabla = None).
  { unfold exact_match. destruct (dict_get tabla mass_g) eqn:E; [eauto | reflexivity]. }
  destruct (mpe_mg_para_inside mass_g clase tabla Hex)
    as [H | (_ & _ & r0 & r1 & Hr0 & _ & ->)]; [exact H |].
  now rewrite (Hrow _ _ Hr0).
Qed.

(** On a key whose row lacks the class, [bisect_left] lands on that key,
    and the missing value on the right of the bracket ends the lookup. *)
Lemma mpe_key_without_class mass_g clase tabla r :
  dict_get tabla mass_g = Some r -> row_get r clase = None ->
  mpe_mg_para mass_g clase tabla = Ok None.
Proof.
  intros Hr Hc.
  assert (Hex : exact_match mass_g clase tabla = None)
    by (unfold exact_match; now rewrite Hr).
  destruct (mpe_mg_para_inside mass_g clase tabla Hex)
    as [H | (Hi & _ & r0 & r1 & _ & Hr1 & ->)]; [exact H |].
  set (xs := sorted (keys tabla)) in *.
  pose proof (sorted_StronglySorted (keys tabla)) as Hs. fold xs in Hs.
  destruct (bisect_left_spec xs mass_g Hs) as (_ & Hlt & Hge).
  set (i := bisect_left xs mass_g) in *.
  assert (Hin : In mass_g xs) by (apply sorted_In; eapply dict_get_In_keys; eauto).
  destruct (In_nth _ _ 0 Hin) as (p & Hp & Hnth).
  assert (Hpi : (i <= p)%nat).
  { destruct (le_lt_dec i p) as [|Hlt']; [assumption |].
    apply Hlt in Hlt'. lra. }
  assert (Heq : nth i xs 0 = mass_g).
  { apply Rle_antisym; [|apply Hge; lia].
    rewrite <- Hnth. apply StronglySorted_nth; [exact Hs | lia]. }
  rewrite Heq, Hr in Hr1. injection Hr1 as <-.
  rewrite Hc. now destruct (row_get r0 clase).
Qed.

(** ** Interpolation *)

Lemma ln10_pos : 0 < ln 10.
Proof. rewrite <- ln_1. apply ln_increasing; lra. Qed.

Lemma interpolar_value mass_g x0 x1 y0 y1 :
  0 < x0 -> x0 < mass_g -> x0 < x1 -> 0 < y0 -> 0 < y1 ->
  interpolar mass_g x0 x1 y0 y1 = Ok (loglog mass_g x0 x1 y0 y1).
Proof.
  intros Hx0 Hm Hx Hy0 Hy1. unfold interpolar, log10.
  rewrite !Rleb_false by lra. cbn [bind]. unfold fdiv.
  rewrite Reqb_false; [reflexivity |].
  pose proof ln10_pos. pose proof (ln_increasing x0 x1 Hx0 Hx).
  unfold Rdiv. intros Heq.
  assert ((ln x1 - ln x0) * / ln 10 = 0) by lra.
  apply Rmult_integral in H1. destruct H1 as [H1 | H1]; [lra |].
  apply Rinv_neq_0_compat in H1; [exact H1 | lra].
Qed.

(** Past the exact match, with the mass within the keys and [bisect_left]
    strictly inside them, the two rows around the index decide. *)
Lemma mpe_mg_para_bracket mass_g clase tabla r0 r1 :
  let xs := sorted (keys tabla) in
  let i := bisect_left xs mass_g in
  exact_match mass_g clase tabla = None ->
  nth 0 xs 0 <= mass_g <= last xs 0 ->
  (0 < i < length xs)%nat ->
  dict_get tabla (nth (i - 1) xs 0) = Some r0 ->
  dict_get tabla (nth i xs 0) = Some r1 ->
  mpe_mg_para mass_g clase tabla =
    match row_get r0 clase, row_get r1 clase with
    | Some y0, Some y1 =>
        v <- interpolar mass_g (nth (i - 1) xs 0) (nth i xs 0) y0 y1 ;;
        Ok (Some v)
    | _, _ => Ok None
    end.
Proof.
  intros xs i Hex Hr Hi Hr0 Hr1. unfold mpe_mg_para. rewrite Hex.
  fold xs i. clearbody i. clearbody xs.
  destruct xs as [|x_first xs']; [cbn in Hi; lia |].
  set (xs := x_first :: xs') in *.
  change (nth 0 xs 0) with x_first in Hr.
  rewrite !Rltb_false by lra.
  destruct (Nat.eqb_neq i 0) as [_ ->]; [|lia].
  destruct (Nat.eqb_neq i (length xs)) as [_ ->]; [|lia].
  cbn [orb]. rewrite !index_nth by lia. cbn [bind].
  unfold getitem. rewrite Hr0, Hr1. reflexivity.
Qed.

(** Between two neighbours of the sorted keys the lookup interpolates. *)
Lemma mpe_between mass_g clase tabla l1 x0 x1 l2 r0 r1 y0 y1 :
  sorted (keys tabla) = l1 ++ x0 :: x1 :: l2 ->
  x0 < mass_g < x1 ->
  dict_get tabla x0 = Some r0 -> row_get r0 clase = Some y0 ->
  dict_get tabla x1 = Some r1 -> row_get r1 clase = Some y1 ->
  0 < x0 -> 0 < y0 -> 0 < y1 ->
  mpe_mg_para mass_g clase tabla = Ok (Some (loglog mass_g x0 x1 y0 y1)).
Proof.
  intros Hxs Hm Hr0 Hy0 Hr1 Hy1 Px0 Py0 Py1.
  pose proof (sorted_StronglySorted (keys tabla)) as Hs.
  destruct (bisect_left_spec _ mass_g Hs) as (_ & Hlt & Hge).
  pose proof (fun x => sorted_In x (keys tabla)) as HIn.
  pose proof (mpe_mg_para_bracket mass_g clase tabla) as Hb. cbn zeta in Hb.
  rewrite (last_nth (sorted (keys tabla))) in Hb.
  set (xs := sorted (keys tabla)) in *.
  set (i := bisect_left xs mass_g) in *.
  set (n := length l1).
  assert (Hlen : length xs = (n + 2 + length l2)%nat).
  { rewrite Hxs, length_app. cbn. fold n. lia. }
  assert (Hn0 : nth n xs 0 = x0) by (rewrite Hxs; apply nth_middle).
  assert (Hn1 : nth (n + 1) xs 0 = x1).
  { rewrite Hxs. unfold n. rewrite app_nth2_plus. reflexivity. }
  assert (Hi : i = (n + 1)%nat).
  { destruct (le_lt_dec i n) as [Hle | Hgt].
    - assert (mass_g <= nth n xs 0) by (apply Hge; lia). lra.
    - destruct (le_lt_dec i (n + 1)) as [Hle' | Hgt']; [lia |].
      assert (nth (n + 1) xs 0 < mass_g) by (apply Hlt; lia). lra. }
  assert (Hk : ~ In mass_g (keys tabla)).
  { intros Hin. apply HIn in Hin. destruct (In_nth _ _ 0 Hin) as (p & Hp & Hnth).
    destruct (le_lt_dec p n) as [Hle | Hgt].
    - assert (nth p xs 0 <= nth n xs 0) by (apply StronglySorted_nth; [exact Hs | lia]).
      lra.
    - assert (nth (n + 1) xs 0 <= nth p xs 0)
        by (apply StronglySorted_nth; [exact Hs | lia]).
      lra. }
  rewrite (Hb r0 r1).
  - rewrite Hy0, Hy1, Hi. replace (n + 1 - 1)%nat with n by lia.
    rewrite Hn0, Hn1, interpolar_value by lra. reflexivity.
  - now apply exact_match_not_key.
  - assert (nth 0 xs 0 <= nth n xs 0) by (apply StronglySorted_nth; [exact Hs | lia]).
    assert (nth (n + 1) xs 0 <= nth (length xs - 1) xs 0)
      by (apply StronglySorted_nth; [exact Hs | lia]).
    lra.
  - lia.
  - rewrite Hi. replace (n + 1 - 1)%nat with n by lia. now rewrite Hn0.
  - now rewrite Hi, Hn1.
Qed.

(** The interpolant, with natural logarithms: [y0 * (y1/y0) ^ q] for
    [q = ln (mass/x0) / ln (x1/x0)]. *)
Lemma loglog_exp mass_g x0 x1 y0 y1 :
  0 < x0 -> x0 < x1 -> 0 < y0 ->
  loglog mass_g x0 x1 y0 y1 =
  y0 * exp ((ln mass_g - ln x0) / (ln x1 - ln x0) * (ln y1 - ln y0)).
Proof.
  intros Hx0 Hx Hy0. unfold loglog, lg, Rpower.
  pose proof ln10_pos as HL. pose proof (ln_increasing x0 x1 Hx0 Hx) as HB.
  rewrite <- (exp_ln y0 Hy0) at 3. rewrite <- exp_plus. f_equal.
  field. lra.
Qed.

Lemma ln_le_sub1 x : 0 < x -> ln x <= x - 1.
Proof.
  intros Hx. pose proof (exp_ineq1_le (ln x)) as H.
  rewrite (exp_ln x Hx) in H. lra.
Qed.

Lemma ln_quot x y : 0 < x -> 0 < y -> ln x - ln y = ln (x / y).
Proof.
  intros Hx Hy. unfold Rdiv.
  rewrite ln_mult, ln_Rinv; auto using Rinv_0_lt_compat.
Qed.

Lemma exp_half_sq x : exp (x / 2) * exp (x / 2) = exp x.
Proof. rewrite <- exp_plus. f_equal. lra. Qed.

(** At 1414.21 g between the rows of 1000 g (80 mg) and 2000 g (120 mg) the
    interpolant sits just below [80 * sqrt 1.5 = 97.9795...]. *)
Lemma loglog_example_bounds :
  97.97 < loglog 1414.21 1000 2000 80 120 < 97.98.
Proof.
  rewrite loglog_exp by lra.
  rewrite !ln_quot by lra.
  replace (1414.21 / 1000) with 1.41421 by lra.
  replace (2000 / 1000) with 2 by lra.
  replace (120 / 80) with 1.5 by lra.
  set (A := ln 1.41421). set (B := ln 2). set (C := ln 1.5).
  assert (HB : 1 / 2 <= B).
  { unfold B. replace 2 with (/ (1 / 2)) by lra. rewrite ln_Rinv by lra.
    pose proof (ln_le_sub1 (1 / 2)). lra. }
  assert (HC : 0 < C <= 1 / 2).
  { unfold C. split; [rewrite <- ln_1; apply ln_increasing; lra |].
    pose proof (ln_le_sub1 1.5). lra. }
  assert (H2A : 2 * A = ln (1.41421 * 1.41421)).
  { unfold A. rewrite ln_mult by lra. lra. }
  assert (HA1 : 2 * A < B).
  { rewrite H2A. unfold B. apply ln_increasing; lra. }
  assert (HA2 : B - 2 * A <= 6 / 1000000).
  { rewrite H2A. unfold B. rewrite ln_quot by lra.
    eapply Rle_trans; [apply ln_le_sub1; apply Rdiv_lt_0_compat; lra |].
    lra. }
  set (q := A / B).
  assert (Hq : q * B = A) by (unfold q; field; lra).
  assert (Hq1 : q < 1 / 2) by nra.
  assert (Hq2 : 1 / 2 - 6 / 1000000 <= q) by nra.
  set (e2 := exp (C / 2)).
  assert (He2 : e2 * e2 = 1.5).
  { unfold e2. rewrite exp_half_sq. unfold C. apply exp_ln. lra. }
  assert (He2pos : 0 < e2) by apply exp_pos.
  assert (He2lo : 1.22474 < e2) by nra.
  assert (He2hi : e2 < 1.22475) by nra.
  assert (Hup : exp (q * C) < e2).
  { apply exp_increasing. nra. }
  assert (Hlo : e2 * (1 - 3 / 1000000) <= exp (q * C)).
  { set (dl := C / 2 - q * C).
    assert (Hdl : 0 < dl <= 3 / 1000000) by (unfold dl; nra).
    replace (q * C) with (C / 2 + - dl) by (unfold dl; lra).
    rewrite exp_plus. fold e2.
    pose proof (exp_ineq1_le (- dl)) as Hexp.
    apply Rmult_le_compat_l; [lra |]. lra. }
  split; nra.
Qed.

(** ** The example table *)

Lemma example_keys :
  keys MPE_TABLE_EXAMPLE_MG =
  [1; 2; 5; 10; 20; 50; 100; 200; 500; 1000; 2000; 5000; 10000; 20000; 50000].
Proof. reflexivity. Qed.

Lemma example_keys_ascending : StronglySorted Rle (keys MPE_TABLE_EXAMPLE_MG).
Proof.
  rewrite example_keys.
  repeat first [ apply SSorted_cons | apply SSorted_nil
               | apply Forall_cons | apply Forall_nil ]; lra.
Qed.

Lemma example_sorted :
  sorted (keys MPE_TABLE_EXAMPLE_MG) =
  [1; 2; 5; 10; 20; 50; 100; 200; 500] ++ 1000 :: 2000 :: [5000; 10000; 20000; 50000].
Proof. rewrite (sorted_id _ example_keys_ascending). reflexivity. Qed.

Lemma example_wf : dict_wf MPE_TABLE_EXAMPLE_MG.
Proof.
  unfold dict_wf. rewrite example_keys.
  repeat (apply NoDup_cons; [cbn; intros H; repeat destruct H as [H | H]; lra |]).
  apply NoDup_nil.
Qed.

Lemma example_row_1000 :
  dict_get MPE_TABLE_EXAMPLE_MG 1000 =
  Some [("E2", 30); ("F1", 80); ("F2", 300); ("M1", 1500); ("M2", 4500);
        ("M3", 15000)]%string.
Proof. unfold MPE_TABLE_EXAMPLE_MG. cmp. reflexivity. Qed.

Lemma example_below x : In x (keys MPE_TABLE_EXAMPLE_MG) -> 1 <= x <= 50000.
Proof.
  rewrite example_keys. cbn. intros H. repeat destruct H as [<- | H]; lra.
Qed.

Lemma fold_Rmax_lub x l b :
  (forall y, In y (x :: l) -> y <= b) -> fold_right Rmax x l <= b.
Proof.
  induction l as [|z l IH]; cbn; intros H.
  - apply H; now left.
  - apply Rmax_lub; [apply H; right; now left |].
    apply IH. intros y [-> | Hy]; apply H; [now left | right; now right].
Qed.

Lemma fold_Rmin_glb x l b :
  (forall y, In y (x :: l) -> b <= y) -> b <= fold_right Rmin x l.
Proof.
  induction l as [|z l IH]; cbn; intros H.
  - apply H; now left.
  - apply Rmin_glb; [apply H; right; now left |].
    apply IH. intros y [-> | Hy]; apply H; [now left | right; now right].
Qed.

Lemma example_key_max : key_max MPE_TABLE_EXAMPLE_MG = Some 50000.
Proof.
  unfold key_max. rewrite example_keys. f_equal. apply Rle_antisym.
  - apply fold_Rmax_lub. intros y Hy.
    apply (example_below y). rewrite example_keys. exact Hy.
  - apply fold_Rmax_ge. cbn. tauto.
Qed.

Lemma example_key_min : key_min MPE_TABLE_EXAMPLE_MG = Some 1.
Proof.
  unfold key_min. rewrite example_keys. f_equal. apply Rle_antisym.
  - apply fold_Rmin_le. cbn. tauto.
  - apply fold_Rmin_glb. intros y Hy.
    apply (example_below y). rewrite example_keys. exact Hy.
Qed.

Lemma example_E1_absent : class_absent "E1" MPE_TABLE_EXAMPLE_MG.
Proof. unfold class_absent, MPE_TABLE_EXAMPLE_MG. repeat constructor. Qed.

Lemma example_2000 :
  mpe_mg_para 2000 "E2" MPE_TABLE_EXAMPLE_MG = Ok (Some 50) /\
  mpe_mg_para 2000 "F1" MPE_TABLE_EXAMPLE_MG = Ok (Some 120) /\
  mpe_mg_para 2000 "F2" MPE_TABLE_EXAMPLE_MG = Ok (Some 500) /\
  mpe_mg_para 2000 "M1" MPE_TABLE_EXAMPLE_MG = Ok (Some 2500) /\
  mpe_mg_para 2000 "M2" MPE_TABLE_EXAMPLE_MG = Ok (Some 7500) /\
  mpe_mg_para 2000 "M3" MPE_TABLE_EXAMPLE_MG = Ok (Some 25000).
Proof.
  repeat split; eapply mpe_exact; try apply example_row_2000; reflexivity.
Qed.

(** ** The table in use *)

Lemma or_example_nonempty kv tabla : or_example (Some (kv :: tabla)) = kv :: tabla.
Proof. reflexivity. Qed.

Lemma or_example_falsy : or_example None = MPE_TABLE_EXAMPLE_MG /\
                         or_example (Some []) = MPE_TABLE_EXAMPLE_MG.
Proof. split; reflexivity. Qed.

(** ** The scan of the class order *)

(** With the MPE threshold supplied, the other threshold is never read. *)
Lemma scan_mpe_basis mass_g us um tabla clases :
  scan mass_g us (Some um) tabla clases = scan mass_g None (Some um) tabla clases.
Proof.
  induction clases as [|c rest IH]; cbn; [reflexivity |].
  destruct (mpe_mg_para mass_g c tabla) as [[v|]|e]; cbn; auto.
  now rewrite IH.
Qed.

(** A class returned by the scan qualifies, and no class before it does. *)
Lemma scan_first mass_g us um tabla clases c :
  scan mass_g us um tabla clases = Ok (Some c) ->
  exists pre post,
    clases = pre ++ c :: post /\
    qualifies mass_g us um tabla c /\
    forall c', In c' pre -> ~ qualifies mass_g us um tabla c'.
Proof.
  induction clases as [|k rest IH]; cbn; [discriminate |].
  destruct (mpe_mg_para mass_g k tabla) as [[v|]|e] eqn:E; cbn; try discriminate.
  - assert (Hskip : scan mass_g us um tabla rest = Ok (Some c) ->
                    ~ meets us um v ->
                    exists pre post, k :: rest = pre ++ c :: post /\
                      qualifies mass_g us um tabla c /\
                      forall c', In c' pre -> ~ qualifies mass_g us um tabla c').
    { intros Hs Hn. destruct (IH Hs) as (pre & post & -> & Hq & Hpre).
      exists (k :: pre), post. repeat split; auto.
      intros c' [<- | Hc']; [|auto].
      intros (v' & Hv' & Hm). rewrite E in Hv'. injection Hv' as <-. auto. }
    assert (Hhit : meets us um v ->
                   exists pre post, k :: rest = pre ++ k :: post /\
                     qualifies mass_g us um tabla k /\
                     forall c', In c' pre -> ~ qualifies mass_g us um tabla c').
    { intros Hm. exists [], rest. repeat split; [exists v; auto | intros ? []]. }
    destruct um as [um|]; [|destruct us as [us|]; [|discriminate]].
    + destruct (Rleb v um) eqn:L.
      * intros [= <-]. apply Hhit. cbn. now apply Rleb_spec.
      * intros Hs. apply Hskip; [exact Hs |]. cbn. intros Hle.
        apply Rleb_spec in Hle. congruence.
    + destruct (Rleb (v / 1000 / sqrt 3) us) eqn:L.
      * intros [= <-]. apply Hhit. cbn. now apply Rleb_spec.
      * intros Hs. apply Hskip; [exact Hs |]. cbn. intros Hle.
        apply Rleb_spec in Hle. congruence.
  - intros Hs. destruct (IH Hs) as (pre & post & -> & Hq & Hpre).
    exists (k :: pre), post. repeat split; auto.
    intros c' [<- | Hc']; [|auto].
    intros (v' & Hv' & _). rewrite E in Hv'. discriminate.
Qed.

(** The scan answers [None] only when no class of the order qualifies. *)
Lemma scan_none mass_g us um tabla clases :
  scan mass_g us um tabla clases = Ok None ->
  forall c, In c clases -> ~ qualifies mass_g us um tabla c.
Proof.
  induction clases as [|k rest IH]; cbn; [intros _ c [] |].
  destruct (mpe_mg_para mass_g k tabla) as [[v|]|e] eqn:E; cbn; try discriminate.
  - assert (Hskip : scan mass_g us um tabla rest = Ok None -> ~ meets us um v ->
                    forall c, k = c \/ In c rest -> ~ qualifies mass_g us um tabla c).
    { intros Hs Hn c [<- | Hc]; [|auto].
      intros (v' & Hv' & Hm). rewrite E in Hv'. injection Hv' as <-. auto. }
    destruct um as [um|]; [|destruct us as [us|]; [|discriminate]].
    + destruct (Rleb v um) eqn:L; [discriminate |].
      intros Hs. apply Hskip; [exact Hs |]. cbn. intros Hle.
      apply Rleb_spec in Hle. congruence.
    + destruct (Rleb (v / 1000 / sqrt 3) us) eqn:L; [discriminate |].
      intros Hs. apply Hskip; [exact Hs |]. cbn. intros Hle.
      apply Rleb_spec in Hle. congruence.
  - intros Hs c [<- | Hc]; [|auto].
    intros (v' & Hv' & _). rewrite E in Hv'. discriminate.
Qed.

(** What the lookup can raise is never the selector's usage error. *)
Lemma mpe_mg_para_raises mass_g clase tabla e :
  mpe_mg_para mass_g clase tabla = Raise e -> e <> usage_error.
Proof.
  unfold mpe_mg_para, index, getitem, interpolar, log10, fdiv.
  repeat match goal with
         | |- context [match ?x with _ => _ end] => destruct x; cbn
         end;
    intros [= <-]; discriminate.
Qed.

Lemma scan_raises mass_g us um tabla clases e :
  scan mass_g us um tabla clases = Raise e ->
  us <> None \/ um <> None -> e <> usage_error.
Proof.
  intros H Hsup. induction clases as [|k rest IH]; cbn in H; [discriminate |].
  destruct (mpe_mg_para mass_g k tabla) as [[v|]|e'] eqn:E; cbn in H.
  - destruct um as [um|]; [|destruct us as [us|]; [|destruct Hsup; congruence]].
    + destruct (Rleb v um); [discriminate | auto].
    + destruct (Rleb (v / 1000 / sqrt 3) us); [discriminate | auto].
  - auto.
  - injection H as <-. eapply mpe_mg_para_raises; eauto.
Qed.

(** * Specification properties *)

(** C1, as stated, fails: with both thresholds supplied the selector is not
    rejected; at 2000 g on the example table with [umbral_std_g = 1] and
    [umbral_mpe_mg = 60] it answers E2. *)
Lemma seleccionar_both_thresholds_accepted :
  seleccionar_clase_pesa 2000 (Some 1) (Some 60) None CLASSES_ORDER
  = Ok (Some "E2"%string).
Proof.
  unfold seleccionar_clase_pesa, or_example, CLASSES_ORDER. cbn [scan].
  destruct example_2000 as (-> & _). cbn [bind].
  now rewrite Rleb_true by lra.
Qed.

(** C1, amended: the selector is rejected with the usage error exactly when
    neither threshold is supplied, whatever the mass, the table and the
    class order; with both supplied the MPE threshold decides and the
    standard-uncertainty threshold is ignored. *)
Theorem seleccionar_usage_error_iff_no_threshold :
  (forall mass_g us um tabla clases,
     seleccionar_clase_pesa mass_g us um tabla clases = Raise usage_error
     <-> us = None /\ um = None) /\
  (forall mass_g us um tabla clases,
     seleccionar_clase_pesa mass_g (Some us) (Some um) tabla clases
     = seleccionar_clase_pesa mass_g None (Some um) tabla clases).
Proof.
  split.
  - intros mass_g us um tabla clases. split.
    + unfold seleccionar_clase_pesa. intros H.
      destruct um as [um|], us as [us|]; auto; exfalso;
        (eapply scan_raises; [exact H | | reflexivity]);
        ((left; discriminate) || (right; discriminate)).
    + intros [-> ->]. reflexivity.
  - intros. unfold seleccionar_clase_pesa. apply scan_mpe_basis.
Qed.

Lemma seleccionar_usage_error_iff_no_threshold_witness :
  seleccionar_clase_pesa 2000 None None None CLASSES_ORDER = Raise usage_error.
Proof.
  apply (proj1 seleccionar_usage_error_iff_no_threshold 2000 None None None
           CLASSES_ORDER).
  split; reflexivity.
Defined.

(** C2, as stated, fails: a negative [r_rel] is not rejected;
    [masa_minima(1, None, r_rel=-1, k=2)] returns [-2]. *)
Lemma masa_minima_negative_r_rel_returns :
  masa_minima 1 None (-1) 2 true = Ok (-2).
Proof.
  rewrite masa_minima_value by lra. cbn. f_equal. lra.
Qed.

(** C2, amended: [masa_minima] returns [k * s_efectiva(s, d, ...) / r_rel]
    for every [r_rel] other than zero, positive or negative, and fails with
    [ZeroDivisionError] when [r_rel] is zero. *)
Theorem masa_minima_quotient_unless_zero :
  forall s d r_rel k incluir_resolucion,
    (r_rel <> 0 ->
     masa_minima s d r_rel k incluir_resolucion
     = Ok (k * s_efectiva s d incluir_resolucion / r_rel)) /\
    masa_minima s d 0 k incluir_resolucion = Raise ZeroDivisionError.
Proof.
  intros. split; [apply masa_minima_value |].
  unfold masa_minima, fdiv. now rewrite Reqb_true.
Qed.

Lemma masa_minima_quotient_unless_zero_witness :
  masa_minima 0.005 (Some 0.01) r_rel_default k_default true
  = Ok (k_default * s_efectiva 0.005 (Some 0.01) true / r_rel_default).
Proof.
  apply (proj1 (masa_minima_quotient_unless_zero 0.005 (Some 0.01)
                  r_rel_default k_default true)).
  unfold r_rel_default. lra.
Defined.

(** C3: the scan runs through [CLASSES_ORDER] from E2 to M3, which in the
    example table is from the smallest MPE to the largest, so the class
    returned is the tightest that meets the threshold and not the loosest:
    at 2000 g with [umbral_mpe_mg = 600] the selector answers E2 (50 mg)
    although F1 (120 mg) and F2 (500 mg) meet the threshold too and M1
    (2500 mg) is the first that does not. *)
Theorem seleccionar_returns_tightest_class :
  seleccionar_clase_pesa 2000 None (Some 600) None CLASSES_ORDER
  = Ok (Some "E2"%string) /\
  mpe_mg_para 2000 "E2" MPE_TABLE_EXAMPLE_MG = Ok (Some 50) /\
  qualifies 2000 None (Some 600) MPE_TABLE_EXAMPLE_MG "F2" /\
  mpe_mg_para 2000 "F2" MPE_TABLE_EXAMPLE_MG = Ok (Some 500) /\
  ~ qualifies 2000 None (Some 600) MPE_TABLE_EXAMPLE_MG "M1" /\
  ~ qualifies 2000 None (Some 600) MPE_TABLE_EXAMPLE_MG "M2" /\
  ~ qualifies 2000 None (Some 600) MPE_TABLE_EXAMPLE_MG "M3" /\
  50 < 500.
Proof.
  destruct example_2000 as (HE2 & HF1 & HF2 & HM1 & HM2 & HM3).
  repeat split; auto.
  - unfold seleccionar_clase_pesa, or_example, CLASSES_ORDER. cbn [scan].
    rewrite HE2. cbn [bind]. now rewrite Rleb_true by lra.
  - exists 500. split; [exact HF2 | cbn; lra].
  - intros (v & Hv & Hm). rewrite HM1 in Hv. injection Hv as <-. cbn in Hm. lra.
  - intros (v & Hv & Hm). rewrite HM2 in Hv. injection Hv as <-. cbn in Hm. lra.
  - intros (v & Hv & Hm). rewrite HM3 in Hv. injection Hv as <-. cbn in Hm. lra.
  - lra.
Qed.

(** The example of C3 as the code computes it: with [umbral_mpe_mg = 60]
    at 2000 g only E2 meets the threshold, and E2 is returned. *)
Lemma seleccionar_example_60 :
  seleccionar_clase_pesa 2000 None (Some 60) None CLASSES_ORDER
  = Ok (Some "E2"%string).
Proof.
  unfold seleccionar_clase_pesa, or_example, CLASSES_ORDER. cbn [scan].
  destruct example_2000 as (-> & _). cbn [bind].
  now rewrite Rleb_true by lra.
Qed.

(** C4: for a mass strictly between two neighbours [x0 < x1] of the sorted
    keys, in a table of positive masses and MPE values whose rows at [x0]
    and [x1] hold the class, [mpe_mg_para] returns
    [10^(log10 y0 + t*(log10 y1 - log10 y0))] with
    [t = (log10 mass - log10 x0) / (log10 x1 - log10 x0)]; on the example
    table, class F1 at 1414.21 g gives a value between 80 and 120 that lies
    within 0.01 of 97.98 and is not the arithmetic mean 100. *)
Theorem mpe_mg_para_interpolates :
  (forall mass_g clase tabla l1 x0 x1 l2 r0 r1 y0 y1,
     sorted (keys tabla) = l1 ++ x0 :: x1 :: l2 ->
     x0 < mass_g < x1 ->
     dict_get tabla x0 = Some r0 -> row_get r0 clase = Some y0 ->
     dict_get tabla x1 = Some r1 -> row_get r1 clase = Some y1 ->
     0 < x0 -> 0 < y0 -> 0 < y1 ->
     mpe_mg_para mass_g clase tabla =
     Ok (Some (Rpower 10
                 (lg y0 + (lg mass_g - lg x0) / (lg x1 - lg x0) * (lg y1 - lg y0))))) /\
  (exists v,
     mpe_mg_para 1414.21 "F1" MPE_TABLE_EXAMPLE_MG = Ok (Some v) /\
     80 < v < 120 /\ 97.97 < v < 97.98 /\ v <> 100).
Proof.
  split.
  - intros. now apply (mpe_between mass_g clase tabla l1 x0 x1 l2 r0 r1 y0 y1).
  - exists (loglog 1414.21 1000 2000 80 120).
    pose proof loglog_example_bounds as Hb.
    repeat split; try lra.
    eapply mpe_between;
      [ apply example_sorted | lra | apply example_row_1000 | reflexivity
      | apply example_row_2000 | reflexivity | lra | lra | lra ].
Qed.

Lemma mpe_mg_para_interpolates_witness :
  mpe_mg_para 1414.21 "F1" MPE_TABLE_EXAMPLE_MG =
  Ok (Some (Rpower 10
              (lg 80 + (lg 1414.21 - lg 1000) / (lg 2000 - lg 1000) * (lg 120 - lg 80)))).
Proof.
  eapply (proj1 mpe_mg_para_interpolates 1414.21 "F1"%string MPE_TABLE_EXAMPLE_MG);
    [ apply example_sorted | lra | apply example_row_1000 | reflexivity
    | apply example_row_2000 | reflexivity | lra | lra | lra ].
Defined.

(** C5: for every class, a mass below the smallest key or above the largest
    key of the table is not available (no extrapolation); the largest key
    of the example table is 50000, and at 100000 g every class is not
    available. *)
Theorem mpe_mg_para_no_extrapolation :
  (forall mass_g clase tabla lo hi,
     key_min tabla = Some lo -> key_max tabla = Some hi ->
     mass_g < lo \/ hi < mass_g ->
     mpe_mg_para mass_g clase tabla = Ok None) /\
  key_max MPE_TABLE_EXAMPLE_MG = Some 50000 /\
  (forall clase, mpe_mg_para 100000 clase MPE_TABLE_EXAMPLE_MG = Ok None).
Proof.
  assert (Hgen : forall mass_g clase tabla lo hi,
             key_min tabla = Some lo -> key_max tabla = Some hi ->
             mass_g < lo \/ hi < mass_g ->
             mpe_mg_para mass_g clase tabla = Ok None).
  { intros mass_g clase tabla lo hi Hlo Hhi Hout. apply mpe_outside.
    destruct Hout as [H | H]; [left | right]; intros x Hx.
    - pose proof (key_min_le _ _ _ Hlo Hx). lra.
    - pose proof (key_max_ge _ _ _ Hhi Hx). lra. }
  split; [exact Hgen |]. split; [exact example_key_max |].
  intros clase. apply (Hgen _ _ _ 1 50000);
    [exact example_key_min | exact example_key_max | lra].
Qed.

Lemma mpe_mg_para_no_extrapolation_witness :
  mpe_mg_para 0.5 "M3" MPE_TABLE_EXAMPLE_MG = Ok None.
Proof.
  apply (proj1 mpe_mg_para_no_extrapolation 0.5 "M3"%string
           MPE_TABLE_EXAMPLE_MG 1 50000);
    [exact example_key_min | exact example_key_max | lra].
Defined.

(** C6: when the mass is a key of the table and the row of that key holds
    the class, [mpe_mg_para] returns the stored value as it is; on the
    example table, class F1 at 2000 g is 120. *)
Theorem mpe_mg_para_exact_key :
  (forall mass_g clase tabla r v,
     dict_get tabla mass_g = Some r -> row_get r clase = Some v ->
     mpe_mg_para mass_g clase tabla = Ok (Some v)) /\
  mpe_mg_para 2000 "F1" MPE_TABLE_EXAMPLE_MG = Ok (Some 120).
Proof.
  split; [exact mpe_exact |].
  eapply mpe_exact; [apply example_row_2000 | reflexivity].
Qed.

Lemma mpe_mg_para_exact_key_witness :
  mpe_mg_para 1000 "M2" MPE_TABLE_EXAMPLE_MG = Ok (Some 4500).
Proof.
  eapply (proj1 mpe_mg_para_exact_key 1000 "M2"%string MPE_TABLE_EXAMPLE_MG);
    [apply example_row_1000 | reflexivity].
Defined.

(** C7: for [s > 0], [d >= 0], [r_rel > 0] and [k > 0], [masa_minima] with
    the resolution included is monotone: the mass it returns does not
    decrease when [s], [d] or [k] grows, and does not increase when [r_rel]
    grows. *)
Theorem masa_minima_monotone :
  forall s d r_rel k,
    0 < s -> 0 <= d -> 0 < r_rel -> 0 < k ->
    exists m,
      masa_minima s (Some d) r_rel k true = Ok m /\
      (forall s', s <= s' ->
         exists m', masa_minima s' (Some d) r_rel k true = Ok m' /\ m <= m') /\
      (forall d', d <= d' ->
         exists m', masa_minima s (Some d') r_rel k true = Ok m' /\ m <= m') /\
      (forall k', k <= k' ->
         exists m', masa_minima s (Some d) r_rel k' true = Ok m' /\ m <= m') /\
      (forall r_rel', r_rel <= r_rel' ->
         exists m', masa_minima s (Some d) r_rel' k true = Ok m' /\ m' <= m).
Proof.
  intros s d r_rel k Hs Hd Hr Hk.
  pose proof (s_efectiva_pos s (Some d) true Hs) as He.
  assert (Hinv : 0 < / r_rel) by now apply Rinv_0_lt_compat.
  eexists. split; [apply masa_minima_value; lra |].
  repeat split.
  - intros s' Hs'. eexists. split; [apply masa_minima_value; lra |].
    pose proof (s_efectiva_mono_s s s' d Hs Hs').
    unfold Rdiv. apply Rmult_le_compat_r; [lra | nra].
  - intros d' Hd'. eexists. split; [apply masa_minima_value; lra |].
    pose proof (s_efectiva_mono_d s d d' Hd Hd').
    unfold Rdiv. apply Rmult_le_compat_r; [lra | nra].
  - intros k' Hk'. eexists. split; [apply masa_minima_value; lra |].
    unfold Rdiv. apply Rmult_le_compat_r; [lra | nra].
  - intros r' Hr'. eexists. split; [apply masa_minima_value; lra |].
    unfold Rdiv. apply Rmult_le_compat_l; [nra |].
    apply Rinv_le_contravar; lra.
Qed.

Lemma masa_minima_monotone_witness :
  exists m,
    masa_minima 0.005 (Some 0.01) 0.001 2 true = Ok m /\
    (forall s', 0.005 <= s' ->
       exists m', masa_minima s' (Some 0.01) 0.001 2 true = Ok m' /\ m <= m') /\
    (forall d', 0.01 <= d' ->
       exists m', masa_minima 0.005 (Some d') 0.001 2 true = Ok m' /\ m <= m') /\
    (forall k', 2 <= k' ->
       exists m', masa_minima 0.005 (Some 0.01) 0.001 k' true = Ok m' /\ m <= m') /\
    (forall r_rel', 0.001 <= r_rel' ->
       exists m', masa_minima 0.005 (Some 0.01) r_rel' 2 true = Ok m' /\ m' <= m).
Proof.
  apply (masa_minima_monotone 0.005 0.01 0.001 2); lra.
Defined.

(** C8: no row of the example table has a value for class E1, and E1 is
    not available at any mass: the lookup answers "not available", never a
    number. *)
Theorem mpe_mg_para_E1_not_available :
  class_absent "E1" MPE_TABLE_EXAMPLE_MG /\
  forall mass_g, mpe_mg_para mass_g "E1" MPE_TABLE_EXAMPLE_MG = Ok None.
Proof.
  split; [exact example_E1_absent |].
  intros mass_g. apply mpe_class_absent, example_E1_absent.
Qed.

(** The selector on the empty table at 2000 g with [umbral_mpe_mg = 60]. *)
Lemma seleccionar_empty_60 :
  seleccionar_clase_pesa 2000 None (Some 60) (Some []) CLASSES_ORDER
  = Ok (Some "E2"%string).
Proof.
  unfold seleccionar_clase_pesa.
  change (or_example (Some [])) with MPE_TABLE_EXAMPLE_MG.
  unfold CLASSES_ORDER. cbn [scan].
  destruct example_2000 as (-> & _). cbn [bind].
  now rewrite Rleb_true by lra.
Qed.

(** C9: an empty table is replaced by the example table.  For every mass,
    thresholds and class order the selector answers on the empty table what
    it answers on the example table and without a table; a class it
    returns there is the first of the order that qualifies on the example
    table; at 2000 g with [umbral_mpe_mg = 60] it returns E2, although the
    empty table itself has an MPE for no class at any mass, so that a scan
    of it finds no class. *)
Theorem seleccionar_empty_table_is_example :
  (forall mass_g us um clases,
     seleccionar_clase_pesa mass_g us um (Some []) clases
     = seleccionar_clase_pesa mass_g us um (Some MPE_TABLE_EXAMPLE_MG) clases /\
     seleccionar_clase_pesa mass_g us um (Some []) clases
     = seleccionar_clase_pesa mass_g us um None clases) /\
  (forall mass_g us um clases c,
     seleccionar_clase_pesa mass_g us um (Some []) clases = Ok (Some c) ->
     exists pre post,
       clases = pre ++ c :: post /\
       qualifies mass_g us um MPE_TABLE_EXAMPLE_MG c /\
       forall c', In c' pre -> ~ qualifies mass_g us um MPE_TABLE_EXAMPLE_MG c') /\
  seleccionar_clase_pesa 2000 None (Some 60) (Some []) CLASSES_ORDER
  = Ok (Some "E2"%string) /\
  (forall mass_g clase, mpe_mg_para mass_g clase [] = Ok None) /\
  scan 2000 None (Some 60) [] CLASSES_ORDER = Ok None.
Proof.
  split; [|split; [|split; [|split]]].
  - intros. unfold seleccionar_clase_pesa.
    change (or_example (Some [])) with MPE_TABLE_EXAMPLE_MG.
    change (or_example None) with MPE_TABLE_EXAMPLE_MG.
    change (or_example (Some MPE_TABLE_EXAMPLE_MG)) with MPE_TABLE_EXAMPLE_MG.
    split; reflexivity.
  - intros mass_g us um clases c H. apply scan_first.
    unfold seleccionar_clase_pesa in H.
    change (or_example (Some [])) with MPE_TABLE_EXAMPLE_MG in H.
    destruct um, us; try exact H; discriminate.
  - exact seleccionar_empty_60.
  - intros mass_g clase. reflexivity.
  - reflexivity.
Qed.

Lemma seleccionar_empty_table_is_example_witness :
  exists pre post,
    CLASSES_ORDER = pre ++ "E2"%string :: post /\
    qualifies 2000 None (Some 60) MPE_TABLE_EXAMPLE_MG "E2" /\
    forall c', In c' pre -> ~ qualifies 2000 None (Some 60) MPE_TABLE_EXAMPLE_MG c'.
Proof.
  apply (proj1 (proj2 seleccionar_empty_table_is_example)
           2000 None (Some 60) CLASSES_ORDER "E2"%string).
  exact seleccionar_empty_60.
Defined.

(** C10: when the mass is a key of the table and the row of that key lacks
    the class, [mpe_mg_para] answers "not available", whatever the rows of
    the neighbouring keys hold, and also when the key is the smallest. *)
Theorem mpe_mg_para_key_without_class :
  forall mass_g clase tabla r,
    dict_get tabla mass_g = Some r -> row_get r clase = None ->
    mpe_mg_para mass_g clase tabla = Ok None.
Proof. exact mpe_key_without_class. Qed.

(** A table whose rows at 1 g and 5 g hold F1 and whose row at 2 g does
    not, and one whose smallest key lacks it. *)
Lemma mpe_mg_para_key_without_class_witness :
  mpe_mg_para 2 "F1"
    [(1, [("F1", 3)]); (2, [("E2", 1.2)]); (5, [("F1", 4)])]%string = Ok None /\
  mpe_mg_para 1 "F1"
    [(1, [("E2", 1)]); (2, [("F1", 3.5)]); (5, [("F1", 4)])]%string = Ok None.
Proof.
  split.
  - apply (mpe_mg_para_key_without_class 2 "F1"%string _ [("E2", 1.2)]%string);
      [cmp; reflexivity | reflexivity].
  - apply (mpe_mg_para_key_without_class 1 "F1"%string _ [("E2", 1)]%string);
      [cmp; reflexivity | reflexivity].
Defined.

(** * Further properties of the code *)

(** ** Uncertainty calculator *)

Lemma sqrt_sq_abs x : sqrt (x ^ 2) = Rabs x.
Proof. replace (x ^ 2) with (Rsqr x) by (unfold Rsqr; ring). apply sqrt_Rsqr_abs. Qed.

Lemma s_efectiva_ge_abs s d : Rabs s <= s_efectiva s (Some d) true.
Proof.
  cbn. rewrite <- sqrt_sq_abs. apply sqrt_le_1_alt.
  assert (0 <= (d / sqrt 12) ^ 2) by nra. lra.
Qed.

(** X1: counting the resolution never lowers the minimum mass: for
    [k >= 0] and [r_rel > 0] the mass computed with the resolution is at
    least the mass computed without it, whatever [s] and [d]. *)
Theorem masa_minima_resolution_never_lowers :
  forall s d r_rel k,
    0 <= k -> 0 < r_rel ->
    exists m0 m1,
      masa_minima s d r_rel k false = Ok m0 /\
      masa_minima s d r_rel k true = Ok m1 /\
      m0 <= m1.
Proof.
  intros s d r_rel k Hk Hr.
  do 2 eexists. split; [apply masa_minima_value; lra |].
  split; [apply masa_minima_value; lra |].
  assert (Hinv : 0 < / r_rel) by now apply Rinv_0_lt_compat.
  assert (Hs : s_efectiva s d false <= s_efectiva s d true).
  { destruct d as [d|]; [|cbn; lra].
    eapply Rle_trans; [|apply s_efectiva_ge_abs]. cbn. apply Rle_abs. }
  unfold Rdiv. apply Rmult_le_compat_r; [lra | nra].
Qed.

Lemma masa_minima_resolution_never_lowers_witness :
  exists m0 m1,
    masa_minima 0.005 (Some 0.01) 0.001 2 false = Ok m0 /\
    masa_minima 0.005 (Some 0.01) 0.001 2 true = Ok m1 /\
    m0 <= m1.
Proof. apply (masa_minima_resolution_never_lowers 0.005 (Some 0.01) 0.001 2); lra. Defined.

(** ** Lookup between two neighbouring keys *)

(** Strictly between two neighbours of the sorted keys, the rows of the two
    neighbours decide. *)
Lemma mpe_between_rows mass_g clase tabla l1 x0 x1 l2 r0 r1 :
  sorted (keys tabla) = l1 ++ x0 :: x1 :: l2 ->
  x0 < mass_g < x1 ->
  dict_get tabla x0 = Some r0 -> dict_get tabla x1 = Some r1 ->
  mpe_mg_para mass_g clase tabla =
    match row_get r0 clase, row_get r1 clase with
    | Some y0, Some y1 => v <- interpolar mass_g x0 x1 y0 y1 ;; Ok (Some v)
    | _, _ => Ok None
    end.
Proof.
  intros Hxs Hm Hr0 Hr1.
  pose proof (sorted_StronglySorted (keys tabla)) as Hs.
  destruct (bisect_left_spec _ mass_g Hs) as (_ & Hlt & Hge).
  pose proof (fun x => sorted_In x (keys tabla)) as HIn.
  pose proof (mpe_mg_para_bracket mass_g clase tabla) as Hb. cbn zeta in Hb.
  rewrite (last_nth (sorted (keys tabla))) in Hb.
  set (xs := sorted (keys tabla)) in *.
  set (i := bisect_left xs mass_g) in *.
  set (n := length l1).
  assert (Hlen : length xs = (n + 2 + length l2)%nat).
  { rewrite Hxs, length_app. cbn. fold n. lia. }
  assert (Hn0 : nth n xs 0 = x0) by (rewrite Hxs; apply nth_middle).
  assert (Hn1 : nth (n + 1) xs 0 = x1).
  { rewrite Hxs. unfold n. rewrite app_nth2_plus. reflexivity. }
  assert (Hi : i = (n + 1)%nat).
  { destruct (le_lt_dec i n) as [Hle | Hgt].
    - assert (mass_g <= nth n xs 0) by (apply Hge; lia). lra.
    - destruct (le_lt_dec i (n + 1)) as [Hle' | Hgt']; [lia |].
      assert (nth (n + 1) xs 0 < mass_g) by (apply Hlt; lia). lra. }
  assert (Hk : ~ In mass_g (keys tabla)).
  { intros Hin. apply HIn in Hin. destruct (In_nth _ _ 0 Hin) as (p & Hp & Hnth).
    destruct (le_lt_dec p n) as [Hle | Hgt].
    - assert (nth p xs 0 <= nth n xs 0) by (apply StronglySorted_nth; [exact Hs | lia]).
      lra.
    - assert (nth (n + 1) xs 0 <= nth p xs 0)
        by (apply StronglySorted_nth; [exact Hs | lia]).
      lra. }
  rewrite (Hb r0 r1).
  - rewrite Hi. replace (n + 1 - 1)%nat with n by lia. now rewrite Hn0, Hn1.
  - now apply exact_match_not_key.
  - assert (nth 0 xs 0 <= nth n xs 0) by (apply StronglySorted_nth; [exact Hs | lia]).
    assert (nth (n + 1) xs 0 <= nth (length xs - 1) xs 0)
      by (apply StronglySorted_nth; [exact Hs | lia]).
    lra.
  - lia.
  - rewrite Hi. replace (n + 1 - 1)%nat with n by lia. now rewrite Hn0.
  - now rewrite Hi, Hn1.
Qed.

Lemma exp_le x y : x <= y -> exp x <= exp y.
Proof. intros [H | ->]; [left; now apply exp_increasing | right; reflexivity]. Qed.

(** The interpolant as the exponential of a weighted mean of [ln y0] and
    [ln y1]. *)
Lemma loglog_ln mass_g x0 x1 y0 y1 :
  0 < x0 -> x0 < x1 -> 0 < y0 ->
  loglog mass_g x0 x1 y0 y1 =
  exp (ln y0 + (ln mass_g - ln x0) / (ln x1 - ln x0) * (ln y1 - ln y0)).
Proof.
  intros Hx0 Hx Hy0. rewrite loglog_exp by assumption.
  rewrite exp_plus, exp_ln by assumption. reflexivity.
Qed.

(** The weight of the interpolation grows with the mass. *)
Lemma weight_incr m m' x0 x1 :
  0 < x0 -> x0 < m -> m <= m' -> m' < x1 ->
  (ln m - ln x0) / (ln x1 - ln x0) <= (ln m' - ln x0) / (ln x1 - ln x0).
Proof.
  intros Hx0 Hm Hmm Hm1.
  assert (ln x0 < ln x1) by (apply ln_increasing; lra).
  assert (ln m <= ln m').
  { destruct Hmm as [Hlt | ->]; [left; apply ln_increasing; lra | right; reflexivity]. }
  unfold Rdiv. apply Rmult_le_compat_r; [|lra].
  left. apply Rinv_0_lt_compat. lra.
Qed.

(** X5: inside a bracket whose stored values do not decrease with the
    mass, the interpolated MPE does not decrease with the mass either. *)
Theorem mpe_mg_para_monotone_in_bracket :
  forall m m' clase tabla l1 x0 x1 l2 r0 r1 y0 y1,
    sorted (keys tabla) = l1 ++ x0 :: x1 :: l2 ->
    x0 < m -> m <= m' -> m' < x1 ->
    dict_get tabla x0 = Some r0 -> row_get r0 clase = Some y0 ->
    dict_get tabla x1 = Some r1 -> row_get r1 clase = Some y1 ->
    0 < x0 -> 0 < y0 -> y0 <= y1 ->
    exists v v',
      mpe_mg_para m clase tabla = Ok (Some v) /\
      mpe_mg_para m' clase tabla = Ok (Some v') /\
      v <= v'.
Proof.
  intros m m' clase tabla l1 x0 x1 l2 r0 r1 y0 y1
    Hxs Hm Hmm Hm1 Hr0 Hy0 Hr1 Hy1 Px0 Py0 Hy.
  do 2 eexists.
  split; [eapply mpe_between; eauto; lra |].
  split; [eapply mpe_between; eauto; lra |].
  rewrite !loglog_ln by lra.
  pose proof (weight_incr m m' x0 x1 Px0 Hm Hmm Hm1) as Hq.
  assert (ln y0 <= ln y1).
  { destruct Hy as [Hlt | ->]; [left; now apply ln_increasing | right; reflexivity]. }
  apply exp_le. nra.
Qed.

Lemma mpe_mg_para_monotone_in_bracket_witness :
  exists v v',
    mpe_mg_para 1200 "F2" MPE_TABLE_EXAMPLE_MG = Ok (Some v) /\
    mpe_mg_para 1800 "F2" MPE_TABLE_EXAMPLE_MG = Ok (Some v') /\
    v <= v'.
Proof.
  eapply (mpe_mg_para_monotone_in_bracket 1200 1800 "F2"%string MPE_TABLE_EXAMPLE_MG);
    [ apply example_sorted | lra | lra | lra | apply example_row_1000 | reflexivity
    | apply example_row_2000 | reflexivity | lra | lra | lra ].
Defined.

(** ** What the lookup raises *)

(** With [x0] below the mass and below [x1], the interpolation raises the
    math domain error when [x0] or one of the two values is not positive,
    and returns the interpolant otherwise. *)
Lemma interpolar_cases mass_g x0 x1 y0 y1 :
  x0 < mass_g -> x0 < x1 ->
  ((x0 <= 0 \/ y0 <= 0 \/ y1 <= 0) /\
   interpolar mass_g x0 x1 y0 y1 = Raise math_domain_error) \/
  (0 < x0 /\ 0 < y0 /\ 0 < y1 /\
   interpolar mass_g x0 x1 y0 y1 = Ok (loglog mass_g x0 x1 y0 y1)).
Proof.
  intros Hm Hx.
  destruct (Rle_dec x0 0) as [Hx0 | Hx0].
  - left. split; [now left |]. unfold interpolar, log10.
    destruct (Rleb mass_g 0); [reflexivity |]. cbn [bind].
    now rewrite Rleb_true.
  - assert (Hx0pos : 0 < x0) by lra.
    assert (Hdiv : Reqb (ln x1 / ln 10 - ln x0 / ln 10) 0 = false).
    { apply Reqb_false. pose proof ln10_pos.
      pose proof (ln_increasing x0 x1 Hx0pos Hx).
      intros Heq.
      assert (E : ln x1 / ln 10 - ln x0 / ln 10 = (ln x1 - ln x0) * / ln 10)
        by (field; lra).
      rewrite E in Heq. apply Rmult_integral in Heq. destruct Heq as [Heq | Heq]; [lra |].
      apply Rinv_neq_0_compat in Heq; [exact Heq | lra]. }
    destruct (Rle_dec y0 0) as [Hy0 | Hy0].
    + left. split; [right; now left |]. unfold interpolar, log10, fdiv.
      rewrite !(Rleb_false mass_g), !(Rleb_false x0), !(Rleb_false x1) by lra.
      cbn [bind]. rewrite Hdiv. cbn [bind]. now rewrite Rleb_true.
    + destruct (Rle_dec y1 0) as [Hy1 | Hy1].
      * left. split; [right; now right |]. unfold interpolar, log10, fdiv.
        rewrite !(Rleb_false mass_g), !(Rleb_false x0), !(Rleb_false x1),
          !(Rleb_false y0) by lra.
        cbn [bind]. rewrite Hdiv. cbn [bind]. now rewrite Rleb_true.
      * right. repeat split; try lra. apply interpolar_value; lra.
Qed.


(** X6: strictly between two neighbouring keys whose rows hold the class,
    a lower key of zero or below makes the lookup raise
    [ValueError: math domain error], and that error is raised only when the
    lower key or one of the two stored values is zero or below. *)
Theorem mpe_mg_para_domain_error_conditions :
  forall mass_g clase tabla l1 x0 x1 l2 r0 r1 y0 y1,
    sorted (keys tabla) = l1 ++ x0 :: x1 :: l2 ->
    x0 < mass_g < x1 ->
    dict_get tabla x0 = Some r0 -> row_get r0 clase = Some y0 ->
    dict_get tabla x1 = Some r1 -> row_get r1 clase = Some y1 ->
    (x0 <= 0 -> mpe_mg_para mass_g clase tabla = Raise math_domain_error) /\
    (mpe_mg_para mass_g clase tabla = Raise math_domain_error ->
     x0 <= 0 \/ y0 <= 0 \/ y1 <= 0).
Proof.
  intros mass_g clase tabla l1 x0 x1 l2 r0 r1 y0 y1 Hxs Hm Hr0 Hy0 Hr1 Hy1.
  rewrite (mpe_between_rows _ clase _ _ _ _ _ _ _ Hxs Hm Hr0 Hr1), Hy0, Hy1.
  destruct (interpolar_cases mass_g x0 x1 y0 y1) as [(Hbad & ->) | (P0 & P1 & P2 & ->)];
    try lra; cbn [bind].
  - split; [reflexivity | tauto].
  - split; [lra | discriminate].
Qed.

Lemma mpe_mg_para_domain_error_conditions_witness :
  mpe_mg_para 1 "F1" [(0, [("F1", 1)]); (2, [("F1", 3)])]%string
  = Raise math_domain_error.
Proof.
  apply (proj1 (mpe_mg_para_domain_error_conditions 1 "F1"%string
                  [(0, [("F1", 1)]); (2, [("F1", 3)])]%string
                  [] 0 2 [] [("F1", 1)]%string [("F1", 3)]%string 1 3
                  ltac:(cmp; reflexivity) ltac:(lra)
                  ltac:(cmp; reflexivity) eq_refl
                  ltac:(cmp; reflexivity) eq_refl)).
  lra.
Defined.

(** X7: strictly between two neighbouring keys, a class that one of the
    two rows lacks is not available, whatever the other row holds. *)
Theorem mpe_mg_para_bracket_row_without_class :
  forall mass_g clase tabla l1 x0 x1 l2 r0 r1,
    sorted (keys tabla) = l1 ++ x0 :: x1 :: l2 ->
    x0 < mass_g < x1 ->
    dict_get tabla x0 = Some r0 -> dict_get tabla x1 = Some r1 ->
    row_get r0 clase = None \/ row_get r1 clase = None ->
    mpe_mg_para mass_g clase tabla = Ok None.
Proof.
  intros mass_g clase tabla l1 x0 x1 l2 r0 r1 Hxs Hm Hr0 Hr1 Hnone.
  rewrite (mpe_between_rows _ clase _ _ _ _ _ _ _ Hxs Hm Hr0 Hr1).
  destruct Hnone as [-> | ->]; [reflexivity | now destruct (row_get r0 clase)].
Qed.

Lemma mpe_mg_para_bracket_row_without_class_witness :
  mpe_mg_para 1.5 "F1" [(1, [("F1", 3)]); (2, [("E2", 1.2)])]%string = Ok None.
Proof.
  apply (mpe_mg_para_bracket_row_without_class 1.5 "F1"%string
           [(1, [("F1", 3)]); (2, [("E2", 1.2)])]%string
           [] 1 2 [] [("F1", 3)]%string [("E2", 1.2)]%string
           ltac:(cmp; reflexivity) ltac:(lra)
           ltac:(cmp; reflexivity) ltac:(cmp; reflexivity)).
  right. reflexivity.
Defined.

(** Past the exact match and inside the keys, the key left of the bisect
    index is below the mass and the key at the index is not. *)
Lemma bisect_bracket xs mass_g :
  StronglySorted Rle xs ->
  let i := bisect_left xs mass_g in
  (0 < i < length xs)%nat ->
  nth (i - 1) xs 0 < mass_g <= nth i xs 0.
Proof.
  intros Hs i Hi. destruct (bisect_left_spec xs mass_g Hs) as (_ & Hlt & Hge).
  fold i in Hlt, Hge. split; [apply Hlt | apply Hge]; lia.
Qed.

(** A table with a stored MPE of zero, queried between its two keys. *)
Lemma zero_mpe_raises :
  mpe_mg_para 1.5 "F1" [(1, [("F1", 0)]); (2, [("F1", 3)])]%string
  = Raise math_domain_error.
Proof.
  rewrite (mpe_between_rows 1.5 "F1"%string _ [] 1 2 []
             [("F1", 0)]%string [("F1", 3)]%string);
    [| cmp; reflexivity | lra | cmp; reflexivity | cmp; reflexivity ].
  change (row_get [("F1", 0)]%string "F1") with (Some 0).
  change (row_get [("F1", 3)]%string "F1") with (Some 3).
  destruct (interpolar_cases 1.5 1 2 0 3) as [(_ & ->) | (_ & H & _)];
    try lra; reflexivity.
Qed.

Lemma mpe_only_domain_error :
  forall mass_g clase tabla e,
    mpe_mg_para mass_g clase tabla = Raise e -> e = math_domain_error.
Proof.
  intros mass_g clase tabla e H.
  destruct (exact_match mass_g clase tabla) as [v|] eqn:Hex.
  - unfold mpe_mg_para in H. rewrite Hex in H. discriminate.
  - destruct (mpe_mg_para_inside mass_g clase tabla Hex)
      as [H' | (Hi & _ & r0 & r1 & _ & _ & H')]; rewrite H' in H; [discriminate |].
    pose proof (bisect_bracket _ mass_g (sorted_StronglySorted (keys tabla)) Hi) as Hb.
    cbn zeta in Hb.
    destruct (row_get r0 clase) as [y0|]; [|discriminate].
    destruct (row_get r1 clase) as [y1|]; [|discriminate].
    destruct Hb as [Hb0 Hb1].
    assert (Hx : nth (bisect_left (sorted (keys tabla)) mass_g - 1)
                   (sorted (keys tabla)) 0
                 < nth (bisect_left (sorted (keys tabla)) mass_g)
                     (sorted (keys tabla)) 0) by lra.
    destruct (interpolar_cases mass_g _ _ y0 y1 Hb0 Hx)
      as [(_ & E) | (_ & _ & _ & E)]; rewrite E in H; cbn [bind] in H.
    + now injection H as <-.
    + discriminate.
Qed.

(** X8: the accesses inside the lookup never fail: whatever the table, the
    mass and the class, [xs[i - 1]] and [xs[i]] are in range and [tabla[x0]]
    and [tabla[x1]] are keys, so that [mpe_mg_para] raises neither
    [IndexError] nor [KeyError]. *)
Theorem mpe_mg_para_accesses_in_range :
  forall mass_g clase tabla e,
    mpe_mg_para mass_g clase tabla = Raise e ->
    e <> IndexError /\ e <> KeyError.
Proof.
  intros mass_g clase tabla e H.
  rewrite (mpe_only_domain_error _ _ _ _ H). split; discriminate.
Qed.

Lemma mpe_mg_para_accesses_in_range_witness :
  math_domain_error <> IndexError /\ math_domain_error <> KeyError.
Proof.
  apply (mpe_mg_para_accesses_in_range 1.5 "F1"%string
           [(1, [("F1", 0)]); (2, [("F1", 3)])]%string math_domain_error).
  exact zero_mpe_raises.
Defined.

(** ** Tables of the data model *)








(** ** The order of the rows *)

Lemma StronglySorted_perm_eq l1 l2 :
  StronglySorted Rle l1 -> StronglySorted Rle l2 -> Permutation l1 l2 -> l1 = l2.
Proof.
  intros H1. revert l2. induction H1 as [|a l1 Hs1 IH Ha]; intros l2 H2 Hp.
  - apply Permutation_nil in Hp. now subst.
  - destruct H2 as [|b l2 Hs2 Hb].
    + symmetry in Hp. apply Permutation_nil in Hp. discriminate.
    + assert (Hab : a = b).
      { rewrite Forall_forall in Ha, Hb.
        assert (Hina : In a (b :: l2)) by (eapply Permutation_in; [exact Hp | now left]).
        assert (Hinb : In b (a :: l1))
          by (eapply Permutation_in; [symmetry; exact Hp | now left]).
        destruct Hina as [-> | Hina]; [reflexivity |].
        destruct Hinb as [-> | Hinb]; [reflexivity |].
        apply Rle_antisym; [apply Ha, Hinb | apply Hb, Hina]. }
      subst b. f_equal. apply IH; [exact Hs2 |].
      now apply Permutation_cons_inv in Hp.
Qed.

Lemma sorted_perm_eq l1 l2 : Permutation l1 l2 -> sorted l1 = sorted l2.
Proof.
  intros Hp. apply StronglySorted_perm_eq; try apply sorted_StronglySorted.
  rewrite !sorted_perm. exact Hp.
Qed.

Lemma dict_get_perm t1 t2 m :
  Permutation t1 t2 -> NoDup (keys t1) -> dict_get t1 m = dict_get t2 m.
Proof.
  induction 1 as [| [x r] t1 t2 Hp IH | [x r] [y r'] t | t1 t2 t3 Hp1 IH1 Hp2 IH2];
    intros Hnd.
  - reflexivity.
  - cbn. inversion Hnd; subst. now rewrite IH.
  - cbn. inversion Hnd as [|? ? Hnot _]; subst. cbn in Hnot.
    destruct (Reqb y m) eqn:Ey, (Reqb x m) eqn:Ex; try reflexivity.
    apply Reqb_spec in Ey, Ex. subst. exfalso. apply Hnot. now left.
  - rewrite IH1 by exact Hnd. apply IH2.
    eapply Permutation_NoDup; [|exact Hnd]. unfold keys. now apply Permutation_map.
Qed.

(** The lookup reads a table through [dict_get] and its sorted keys only. *)
Lemma mpe_mg_para_ext mass_g clase t1 t2 :
  (forall m, dict_get t1 m = dict_get t2 m) ->
  sorted (keys t1) = sorted (keys t2) ->
  mpe_mg_para mass_g clase t1 = mpe_mg_para mass_g clase t2.
Proof.
  intros Hd Hk. unfold mpe_mg_para, exact_match, getitem.
  rewrite Hd, Hk.
  destruct (match dict_get t2 mass_g with Some r => row_get r clase | None => None end);
    [reflexivity |].
  destruct (sorted (keys t2)) as [|x xs]; [reflexivity |].
  destruct (_ || _); [reflexivity |].
  destruct (_ || _); [reflexivity |].
  destruct (index _ _) as [x0|]; [|reflexivity]. cbn [bind].
  destruct (index _ _) as [x1|]; [|reflexivity]. cbn [bind].
  now rewrite !Hd.
Qed.

Lemma scan_ext mass_g us um t1 t2 clases :
  (forall c, mpe_mg_para mass_g c t1 = mpe_mg_para mass_g c t2) ->
  scan mass_g us um t1 clases = scan mass_g us um t2 clases.
Proof.
  intros H. induction clases as [|k rest IH]; cbn; [reflexivity |].
  rewrite H, IH. reflexivity.
Qed.

(** X10: the rows need not come sorted by mass: the lookup and the
    selector give the same answer on two tables that hold the same rows in
    a different order. *)
Theorem row_order_is_irrelevant :
  forall t1 t2 mass_g,
    Permutation t1 t2 -> dict_wf t1 ->
    (forall clase, mpe_mg_para mass_g clase t1 = mpe_mg_para mass_g clase t2) /\
    (forall us um clases,
       seleccionar_clase_pesa mass_g us um (Some t1) clases
       = seleccionar_clase_pesa mass_g us um (Some t2) clases).
Proof.
  intros t1 t2 mass_g Hp Hwf.
  assert (Hm : forall m clase, mpe_mg_para m clase t1 = mpe_mg_para m clase t2).
  { intros m clase. apply mpe_mg_para_ext.
    - intros k. now apply dict_get_perm.
    - apply sorted_perm_eq. unfold keys. now apply Permutation_map. }
  split; [apply Hm |].
  intros us um clases. unfold seleccionar_clase_pesa.
  destruct t1 as [|kv1 t1], t2 as [|kv2 t2].
  - reflexivity.
  - apply Permutation_nil in Hp. discriminate.
  - symmetry in Hp. apply Permutation_nil in Hp. discriminate.
  - rewrite !or_example_nonempty.
    destruct um, us; try reflexivity; apply scan_ext; intros c; apply Hm.
Qed.

Lemma row_order_is_irrelevant_witness :
  (forall clase,
     mpe_mg_para 1.5 clase [(2, [("F1", 3.5)]); (1, [("F1", 3)])]%string
     = mpe_mg_para 1.5 clase [(1, [("F1", 3)]); (2, [("F1", 3.5)])]%string) /\
  (forall us um clases,
     seleccionar_clase_pesa 1.5 us um
       (Some [(2, [("F1", 3.5)]); (1, [("F1", 3)])]%string) clases
     = seleccionar_clase_pesa 1.5 us um
       (Some [(1, [("F1", 3)]); (2, [("F1", 3.5)])]%string) clases).
Proof.
  apply (row_order_is_irrelevant
           [(2, [("F1", 3.5)]); (1, [("F1", 3)])]%string
           [(1, [("F1", 3)]); (2, [("F1", 3.5)])]%string 1.5).
  - apply perm_swap.
  - unfold dict_wf. cbn.
    repeat (apply NoDup_cons; [cbn; intros H; repeat destruct H as [H | H]; lra |]).
    apply NoDup_nil.
Defined.

(** ** The selector *)

(** X11: the class the selector returns is the first of the class order
    that qualifies: it stands in the order, it has an MPE at the mass that
    meets the threshold, and no class before it does. *)
Theorem seleccionar_returns_first_qualifying :
  forall mass_g us um tabla clases c,
    seleccionar_clase_pesa mass_g us um tabla clases = Ok (Some c) ->
    exists pre post,
      clases = pre ++ c :: post /\
      qualifies mass_g us um (or_example tabla) c /\
      forall c', In c' pre -> ~ qualifies mass_g us um (or_example tabla) c'.
Proof.
  intros mass_g us um tabla clases c H. apply scan_first.
  unfold seleccionar_clase_pesa in H.
  destruct um, us; try exact H; discriminate.
Qed.

Lemma seleccionar_returns_first_qualifying_witness :
  exists pre post,
    CLASSES_ORDER = pre ++ "E2"%string :: post /\
    qualifies 2000 None (Some 60) (or_example None) "E2" /\
    forall c', In c' pre -> ~ qualifies 2000 None (Some 60) (or_example None) c'.
Proof.
  apply (seleccionar_returns_first_qualifying 2000 None (Some 60) None
           CLASSES_ORDER "E2"%string).
  exact seleccionar_example_60.
Defined.

(** X12: the selector answers "no class qualifies" only when a threshold
    was supplied and no class of the order has an MPE at the mass that
    meets it. *)
Theorem seleccionar_none_means_none_qualifies :
  forall mass_g us um tabla clases,
    seleccionar_clase_pesa mass_g us um tabla clases = Ok None ->
    (us <> None \/ um <> None) /\
    forall c, In c clases -> ~ qualifies mass_g us um (or_example tabla) c.
Proof.
  intros mass_g us um tabla clases H. unfold seleccionar_clase_pesa in H.
  destruct um as [um|], us as [us|]; try discriminate;
    (split; [(left; discriminate) || (right; discriminate) | now apply scan_none]).
Qed.

Lemma selector_example_none :
  seleccionar_clase_pesa 2000 None (Some 10) None CLASSES_ORDER = Ok None.
Proof.
  unfold seleccionar_clase_pesa, or_example, CLASSES_ORDER. cbn [scan].
  destruct example_2000 as (-> & -> & -> & -> & -> & ->). cbn [bind].
  now rewrite !Rleb_false by lra.
Qed.

Lemma seleccionar_none_means_none_qualifies_witness :
  (@None R <> None \/ Some 10 <> None) /\
  forall c, In c CLASSES_ORDER -> ~ qualifies 2000 None (Some 10) (or_example None) c.
Proof.
  apply (seleccionar_none_means_none_qualifies 2000 None (Some 10) None CLASSES_ORDER).
  exact selector_example_none.
Defined.

(** X15: relaxing the MPE threshold never loses the answer: if the
    selector returns a class at a threshold, it returns a class at every
    larger threshold, and that class stands no later in the class order. *)
Theorem seleccionar_relaxed_threshold :
  forall mass_g us um um' tabla clases c,
    um <= um' ->
    seleccionar_clase_pesa mass_g us (Some um) tabla clases = Ok (Some c) ->
    exists c',
      seleccionar_clase_pesa mass_g us (Some um') tabla clases = Ok (Some c') /\
      no_later clases c' c.
Proof.
  intros mass_g us um um' tabla clases c Hle. unfold seleccionar_clase_pesa.
  set (t := or_example tabla).
  induction clases as [|k rest IH]; cbn; [discriminate |].
  destruct (mpe_mg_para mass_g k t) as [[v|]|e]; cbn [bind]; try discriminate.
  - destruct (Rleb v um) eqn:E.
    + intros [= <-]. apply Rleb_spec in E. rewrite Rleb_true by lra.
      exists k. split; [reflexivity |]. exists [], rest. split; [reflexivity | now left].
    + intros H. destruct (IH H) as (c' & Hc' & pre & post & -> & Hin).
      destruct (Rleb v um').
      * exists k. split; [reflexivity |].
        exists (k :: pre), post. split; [reflexivity | now left].
      * exists c'. split; [exact Hc' |].
        exists (k :: pre), post. split; [reflexivity | now right].
  - intros H. destruct (IH H) as (c' & Hc' & pre & post & -> & Hin).
    exists c'. split; [exact Hc' |].
    exists (k :: pre), post. split; [reflexivity | now right].
Qed.

Lemma seleccionar_relaxed_threshold_witness :
  exists c',
    seleccionar_clase_pesa 2000 None (Some 600) None CLASSES_ORDER = Ok (Some c') /\
    no_later CLASSES_ORDER c' "E2".
Proof.
  apply (seleccionar_relaxed_threshold 2000 None 60 600 None CLASSES_ORDER "E2"%string).
  - lra.
  - exact seleccionar_example_60.
Defined.

(** ** Assignment into dicts *)

Lemma dict_get_set_same tabla m r : dict_get (dict_set tabla m r) m = Some r.
Proof.
  induction tabla as [|[x r'] tabla IH]; cbn.
  - now rewrite Reqb_true.
  - destruct (Reqb x m) eqn:E; cbn; rewrite E; [reflexivity | exact IH].
Qed.

Lemma dict_get_set_other tabla m r m' :
  m' <> m -> dict_get (dict_set tabla m r) m' = dict_get tabla m'.
Proof.
  intros Hne. induction tabla as [|[x r'] tabla IH]; cbn.
  - rewrite Reqb_false; [reflexivity | congruence].
  - destruct (Reqb x m) eqn:E; cbn.
    + apply Reqb_spec in E. subst x. rewrite Reqb_false; [reflexivity | congruence].
    + now rewrite IH.
Qed.

Lemma keys_dict_set_In tabla m r x :
  In x (keys (dict_set tabla m r)) -> x = m \/ In x (keys tabla).
Proof.
  induction tabla as [|[y r'] tabla IH]; cbn.
  - intros [<- | []]. now left.
  - destruct (Reqb y m) eqn:E; cbn; [tauto |].
    intros [<- | H]; [right; now left |].
    destruct (IH H); [now left | right; now right].
Qed.

Lemma dict_set_wf tabla m r : dict_wf tabla -> dict_wf (dict_set tabla m r).
Proof.
  unfold dict_wf. induction tabla as [|[y r'] tabla IH]; cbn; intros Hnd.
  - repeat constructor. intros [].
  - inversion Hnd as [|? ? Hnot Hnd']; subst.
    destruct (Reqb y m) eqn:E; cbn; [now constructor |].
    constructor; [|now apply IH].
    intros Hin. apply keys_dict_set_In in Hin. destruct Hin as [-> | Hin]; [|auto].
    now rewrite Reqb_true in E.
Qed.

Lemma row_get_set_same r clase v : row_get (row_set r clase v) clase = Some v.
Proof.
  induction r as [|[c w] r IH]; cbn.
  - now rewrite String.eqb_refl.
  - destruct (String.eqb c clase) eqn:E; cbn; rewrite E; [reflexivity | exact IH].
Qed.

Lemma row_get_set_other r clase v clase' :
  clase' <> clase -> row_get (row_set r clase v) clase' = row_get r clase'.
Proof.
  intros Hne. induction r as [|[c w] r IH]; cbn.
  - destruct (String.eqb clase clase') eqn:E; [|reflexivity].
    apply String.eqb_eq in E. congruence.
  - destruct (String.eqb c clase) eqn:E; cbn; [|now rewrite IH].
    apply String.eqb_eq in E. subst c.
    destruct (String.eqb clase clase') eqn:E'; [|reflexivity].
    apply String.eqb_eq in E'. congruence.
Qed.

(** ** The CSV loader *)

Section LoaderProperties.

Variable float_of_str : string -> result R.
Variable strip : string -> string.

Lemma load_cells_sound fields : forall acc r clase v,
  load_cells float_of_str strip fields acc = Ok r -> row_get r clase = Some v ->
  row_get acc clase = Some v \/
  exists k s, loaded_cell strip fields k s /\ strip k = clase /\ float_of_str s = Ok v.
Proof.
  induction fields as [|[k [s|]|surplus] fields IH]; intros acc r clase v; cbn.
  - intros [= <-] H. now left.
  - assert (Hnext : load_cells float_of_str strip fields acc = Ok r -> row_get r clase = Some v ->
            row_get acc clase = Some v \/
            exists k0 s0, loaded_cell strip (Field k (Some s) :: fields) k0 s0 /\
                          strip k0 = clase /\ float_of_str s0 = Ok v).
    { intros H1 H2. destruct (IH _ _ _ _ H1 H2) as [H | (k0 & s0 & (Hin & Hk & Hs) & H)];
        [now left | right].
      exists k0, s0. split; [|exact H]. split; [now right | now split]. }
    destruct (String.eqb k "mass_g") eqn:Ek; [exact Hnext |].
    destruct (String.eqb (strip s) "") eqn:Es; [exact Hnext |].
    destruct (float_of_str s) as [x|e] eqn:Ex; cbn [bind]; [|discriminate].
    intros H1 H2. destruct (IH _ _ _ _ H1 H2) as [H | (k0 & s0 & (Hin & Hk & Hs) & H)].
    + destruct (String.eqb (strip k) clase) eqn:Ec.
      * apply String.eqb_eq in Ec. subst clase. rewrite row_get_set_same in H.
        injection H as ->. right. exists k, s.
        apply String.eqb_neq in Ek, Es.
        repeat split; auto. now left.
      * apply String.eqb_neq in Ec. rewrite row_get_set_other in H by congruence.
        now left.
    + right. exists k0, s0. split; [|exact H]. split; [now right | now split].
  - intros H1 H2.
    assert (H1' : load_cells float_of_str strip fields acc = Ok r)
      by (now destruct (String.eqb k "mass_g")).
    destruct (IH _ _ _ _ H1' H2) as [H | (k0 & s0 & (Hin & Hk & Hs) & H)];
      [now left | right].
    exists k0, s0. split; [|exact H]. split; [now right | now split].
  - discriminate.
Qed.

Lemma load_rows_sound rows : forall t0 t m r,
  load_rows float_of_str strip rows t0 = Ok t -> dict_get t m = Some r ->
  dict_get t0 m = Some r \/
  exists fields, In fields rows /\ row_mass float_of_str fields m /\ load_cells float_of_str strip fields [] = Ok r.
Proof.
  induction rows as [|fields rows IH]; intros t0 t m r; cbn.
  - intros [= <-] H. now left.
  - destruct (csv_get fields "mass_g") as [[s|]|] eqn:Eg; try discriminate.
    destruct (float_of_str s) as [x|e] eqn:Ex; cbn [bind]; [|discriminate].
    destruct (load_cells float_of_str strip fields []) as [r'|e] eqn:Er; cbn [bind]; [|discriminate].
    intros H1 H2. destruct (IH _ _ _ _ H1 H2) as [H | (f & Hin & Hm & Hl)].
    + destruct (Req_dec_T m x) as [-> | Hne].
      * rewrite dict_get_set_same in H. injection H as ->. right.
        exists fields. split; [now left |]. split; [now exists s | exact Er].
      * rewrite dict_get_set_other in H by exact Hne. now left.
    + right. exists f. split; [now right | now split].
Qed.

(** X16: the loader never invents a value: every MPE of the loaded table
    is the number parsed from a cell that is not blank, in a class column
    of a row of that mass; a blank or missing cell is never recorded, as
    zero or otherwise. *)
Theorem cargar_values_come_from_cells :
  forall rows t m r clase v,
    cargar_tabla_mpe_csv float_of_str strip rows = Ok t ->
    dict_get t m = Some r -> row_get r clase = Some v ->
    exists fields k s,
      In fields rows /\ row_mass float_of_str fields m /\
      loaded_cell strip fields k s /\ strip k = clase /\ float_of_str s = Ok v.
Proof.
  intros rows t m r clase v Hload Hr Hv.
  destruct (load_rows_sound rows [] t m r Hload Hr) as [H | (fields & Hin & Hm & Hl)];
    [discriminate |].
  destruct (load_cells_sound fields [] r clase v Hl Hv) as [H | (k & s & Hc & Hk & Hs)];
    [discriminate |].
  now exists fields, k, s.
Qed.

End LoaderProperties.

Lemma small_csv_loads :
  cargar_tabla_mpe_csv float_of_digits strip_blanks
    [[Field "mass_g" (Some "1"); Field "E1" (Some " "); Field "E2" (Some "1")];
     [Field "mass_g" (Some "2"); Field "E1" None; Field " E2" (Some "3")]]%string
  = Ok [(1, [("E2", 1)]); (2, [("E2", 3)])]%string.
Proof. cbv -[IZR Reqb]. rewrite Reqb_false by lra. reflexivity. Qed.

Lemma cargar_values_come_from_cells_witness :
  exists fields k s,
    In fields
      [[Field "mass_g" (Some "1"); Field "E1" (Some " "); Field "E2" (Some "1")];
       [Field "mass_g" (Some "2"); Field "E1" None; Field " E2" (Some "3")]]%string /\
    row_mass float_of_digits fields 2 /\
    loaded_cell strip_blanks fields k s /\
    strip_blanks k = "E2"%string /\ float_of_digits s = Ok 3.
Proof.
  apply (cargar_values_come_from_cells float_of_digits strip_blanks _
           [(1, [("E2", 1)]); (2, [("E2", 3)])]%string 2 [("E2", 3)]%string
           "E2"%string 3 small_csv_loads).
  - cmp. reflexivity.
  - reflexivity.
Defined.

Section LoaderRows.

Variable float_of_str : string -> result R.
Variable strip : string -> string.

Lemma load_rows_app rows1 : forall rows2 t0,
  load_rows float_of_str strip (rows1 ++ rows2) t0 =
  (t1 <- load_rows float_of_str strip rows1 t0 ;;
   load_rows float_of_str strip rows2 t1).
Proof.
  induction rows1 as [|fields rows1 IH]; intros rows2 t0; cbn; [reflexivity |].
  destruct (csv_get fields "mass_g") as [[s|]|]; try reflexivity.
  destruct (float_of_str s) as [m|e]; cbn [bind]; [|reflexivity].
  destruct (load_cells float_of_str strip fields []) as [r|e]; cbn [bind];
    [apply IH | reflexivity].
Qed.

Lemma load_cells_app fields1 : forall fields2 acc,
  load_cells float_of_str strip (fields1 ++ fields2) acc =
  (acc1 <- load_cells float_of_str strip fields1 acc ;;
   load_cells float_of_str strip fields2 acc1).
Proof.
  induction fields1 as [|[k [s|]|surplus] fields1 IH]; intros fields2 acc; cbn;
    try reflexivity.
  - destruct (String.eqb k "mass_g"); [apply IH |].
    destruct (String.eqb (strip s) ""); [apply IH |].
    destruct (float_of_str s) as [x|e]; cbn [bind]; [apply IH | reflexivity].
  - destruct (String.eqb k "mass_g"); apply IH.
Qed.

(** Rows of other masses leave the row of a mass as it is. *)
Lemma load_rows_keeps rows m : forall t0 t,
  load_rows float_of_str strip rows t0 = Ok t ->
  (forall fields, In fields rows -> ~ row_mass float_of_str fields m) ->
  dict_get t m = dict_get t0 m.
Proof.
  induction rows as [|fields rows IH]; intros t0 t; cbn.
  - now intros [= <-].
  - destruct (csv_get fields "mass_g") as [[s|]|] eqn:Eg; try discriminate.
    destruct (float_of_str s) as [x|e] eqn:Ex; cbn [bind]; [|discriminate].
    destruct (load_cells float_of_str strip fields []) as [r|e]; cbn [bind];
      [|discriminate].
    intros H Hother. rewrite (IH _ _ H) by (intros f Hf; apply Hother; now right).
    apply dict_get_set_other. intros ->.
    apply (Hother fields); [now left | now exists s].
Qed.

(** Cells of other classes leave the value of a class as it is. *)
Lemma load_cells_keeps fields clase : forall acc r,
  load_cells float_of_str strip fields acc = Ok r ->
  (forall k s, loaded_cell strip fields k s -> strip k <> clase) ->
  row_get r clase = row_get acc clase.
Proof.
  induction fields as [|[k [s|]|surplus] fields IH]; intros acc r; cbn.
  - now intros [= <-].
  - assert (Hnext : forall acc', load_cells float_of_str strip fields acc' = Ok r ->
              (forall k0 s0, loaded_cell strip (Field k (Some s) :: fields) k0 s0 ->
                             strip k0 <> clase) ->
              row_get r clase = row_get acc' clase).
    { intros acc' H Hother. apply IH; [exact H |].
      intros k0 s0 (Hin & Hk & Hs). apply (Hother k0 s0). split; [now right | now split]. }
    destruct (String.eqb k "mass_g") eqn:Ek; [apply Hnext |].
    destruct (String.eqb (strip s) "") eqn:Es; [apply Hnext |].
    destruct (float_of_str s) as [x|e]; cbn [bind]; [|discriminate].
    intros H Hother. rewrite (Hnext _ H Hother).
    apply row_get_set_other. intros Heq. apply (Hother k s); [|now symmetry].
    apply String.eqb_neq in Ek, Es. split; [now left | now split].
  - intros H Hother.
    assert (H' : load_cells float_of_str strip fields acc = Ok r)
      by (now destruct (String.eqb k "mass_g")).
    apply IH; [exact H' |].
    intros k0 s0 (Hin & Hk & Hs). apply (Hother k0 s0). split; [now right | now split].
  - discriminate.
Qed.

(** X17: when two rows of the file have the same mass, the later one
    replaces the earlier one as a whole: after a successful load the table
    holds, at the mass of a row that no later row repeats, exactly the
    cells loaded from that row. *)
Theorem cargar_last_row_wins :
  forall pre fields post t m,
    cargar_tabla_mpe_csv float_of_str strip (pre ++ fields :: post) = Ok t ->
    row_mass float_of_str fields m ->
    (forall fields', In fields' post -> ~ row_mass float_of_str fields' m) ->
    exists r,
      load_cells float_of_str strip fields [] = Ok r /\ dict_get t m = Some r.
Proof.
  intros pre fields post t m Hload (s & Hs & Hm) Hpost.
  unfold cargar_tabla_mpe_csv in Hload. rewrite load_rows_app in Hload.
  destruct (load_rows float_of_str strip pre []) as [t1|e]; cbn [bind] in Hload;
    [|discriminate].
  cbn in Hload. rewrite Hs, Hm in Hload. cbn [bind] in Hload.
  destruct (load_cells float_of_str strip fields []) as [r|e]; cbn [bind] in Hload;
    [|discriminate].
  exists r. split; [reflexivity |].
  rewrite (load_rows_keeps _ _ _ _ Hload Hpost). apply dict_get_set_same.
Qed.

(** X18: a cell that is not blank is loaded under the stripped name of its
    column: after a successful load of a row, the class of such a cell has
    the number parsed from it, provided no later cell of the row is loaded
    under the same stripped name. *)
Theorem load_cells_records_cell :
  forall pre k s post r,
    load_cells float_of_str strip (pre ++ Field k (Some s) :: post) [] = Ok r ->
    k <> "mass_g"%string -> strip s <> ""%string ->
    (forall k' s', loaded_cell strip post k' s' -> strip k' <> strip k) ->
    exists v, float_of_str s = Ok v /\ row_get r (strip k) = Some v.
Proof.
  intros pre k s post r Hload Hk Hs Hpost.
  rewrite load_cells_app in Hload.
  destruct (load_cells float_of_str strip pre []) as [acc|e]; cbn [bind] in Hload;
    [|discriminate].
  cbn in Hload. apply String.eqb_neq in Hk, Hs. rewrite Hk, Hs in Hload.
  destruct (float_of_str s) as [v|e]; cbn [bind] in Hload; [|discriminate].
  exists v. split; [reflexivity |].
  rewrite (load_cells_keeps _ _ _ _ Hload Hpost). apply row_get_set_same.
Qed.

Lemma load_cells_raises fields : forall acc e,
  load_cells float_of_str strip fields acc = Raise e ->
  (exists surplus, In (Rest surplus) fields) /\ e = TypeError \/
  exists k s, loaded_cell strip fields k s /\ float_of_str s = Raise e.
Proof.
  induction fields as [|[k [s|]|surplus] fields IH]; intros acc e; cbn.
  - discriminate.
  - assert (Hnext : forall acc', load_cells float_of_str strip fields acc' = Raise e ->
              (exists surplus, In (Rest surplus) (Field k (Some s) :: fields)) /\
              e = TypeError \/
              exists k0 s0, loaded_cell strip (Field k (Some s) :: fields) k0 s0 /\
                            float_of_str s0 = Raise e).
    { intros acc' H. destruct (IH _ _ H) as [((sp & Hin) & He) | (k0 & s0 & (Hin & Hk & Hs) & H')].
      - left. split; [exists sp; now right | exact He].
      - right. exists k0, s0. split; [|exact H']. split; [now right | now split]. }
    destruct (String.eqb k "mass_g") eqn:Ek; [apply Hnext |].
    destruct (String.eqb (strip s) "") eqn:Es; [apply Hnext |].
    destruct (float_of_str s) as [x|e'] eqn:Ex; cbn [bind]; [apply Hnext |].
    intros [= <-]. right. exists k, s. split; [|exact Ex].
    apply String.eqb_neq in Ek, Es. split; [now left | now split].
  - intros H.
    assert (H' : load_cells float_of_str strip fields acc = Raise e)
      by (now destruct (String.eqb k "mass_g")).
    destruct (IH _ _ H') as [((sp & Hin) & He) | (k0 & s0 & (Hin & Hk & Hs) & H'')].
    + left. split; [exists sp; now right | exact He].
    + right. exists k0, s0. split; [|exact H'']. split; [now right | now split].
  - intros [= <-]. left. split; [exists surplus; now left | reflexivity].
Qed.

(** X19: a load fails for four reasons only, each in some row of the
    file: the row has no [mass_g] column ([KeyError]); its [mass_g] field
    is missing ([TypeError]); the line has more fields than the header
    ([TypeError]); or [float] rejects its mass or one of its cells that are
    not blank (the exception of [float]). *)
Theorem cargar_failure_reasons :
  forall rows e,
    cargar_tabla_mpe_csv float_of_str strip rows = Raise e ->
    exists fields,
      In fields rows /\
      ((csv_get fields "mass_g" = None /\ e = KeyError) \/
       (csv_get fields "mass_g" = Some None /\ e = TypeError) \/
       ((exists surplus, In (Rest surplus) fields) /\ e = TypeError) \/
       (exists s, csv_get fields "mass_g" = Some (Some s) /\ float_of_str s = Raise e) \/
       (exists k s, loaded_cell strip fields k s /\ float_of_str s = Raise e)).
Proof.
  intros rows e. unfold cargar_tabla_mpe_csv. generalize (@nil (R * row)).
  induction rows as [|fields rows IH]; intros t0; cbn; [discriminate |].
  destruct (csv_get fields "mass_g") as [[s|]|] eqn:Eg.
  - destruct (float_of_str s) as [m|e'] eqn:Em; cbn [bind].
    + destruct (load_cells float_of_str strip fields []) as [r|e'] eqn:Er; cbn [bind].
      * intros H. destruct (IH _ H) as (f & Hin & Hf). exists f. split; [now right | exact Hf].
      * intros [= <-]. exists fields. split; [now left |].
        destruct (load_cells_raises _ _ _ Er) as [H | H]; tauto.
    + intros [= <-]. exists fields. split; [now left |].
      right. right. right. left. now exists s.
  - intros [= <-]. exists fields. split; [now left | tauto].
  - intros [= <-]. exists fields. split; [now left | tauto].
Qed.

Lemma load_rows_wf rows : forall t0 t,
  load_rows float_of_str strip rows t0 = Ok t -> dict_wf t0 -> dict_wf t.
Proof.
  induction rows as [|fields rows IH]; intros t0 t; cbn.
  - now intros [= <-].
  - destruct (csv_get fields "mass_g") as [[s|]|]; try discriminate.
    destruct (float_of_str s) as [m|e]; cbn [bind]; [|discriminate].
    destruct (load_cells float_of_str strip fields []) as [r|e]; cbn [bind];
      [|discriminate].
    intros H Hwf. apply (IH _ _ H). now apply dict_set_wf.
Qed.

End LoaderRows.

Lemma small_csv_row2_cells :
  load_cells float_of_digits strip_blanks
    ([Field "mass_g" (Some "2"%string); Field "E1" None]
       ++ Field " E2" (Some "3"%string) :: [])%list []
  = Ok [("E2", 3)]%string.
Proof. reflexivity. Qed.

Lemma cargar_last_row_wins_witness :
  exists r,
    load_cells float_of_digits strip_blanks
      [Field "mass_g" (Some "1"); Field "E2" (Some "3")]%string [] = Ok r /\
    dict_get [(1, [("E2", 3)])]%string 1 = Some r.
Proof.
  apply (cargar_last_row_wins float_of_digits strip_blanks
           [[Field "mass_g" (Some "1"); Field "E2" (Some "1"); Field "F1" (Some "2")]]%string
           [Field "mass_g" (Some "1"); Field "E2" (Some "3")]%string
           [] [(1, [("E2", 3)])]%string 1).
  - cbv -[IZR Reqb]. rewrite Reqb_true by lra. reflexivity.
  - exists "1"%string. split; reflexivity.
  - intros fields' [].
Defined.

Lemma load_cells_records_cell_witness :
  exists v, float_of_digits "3" = Ok v /\
            row_get [("E2", 3)]%string (strip_blanks " E2") = Some v.
Proof.
  apply (load_cells_records_cell float_of_digits strip_blanks
           [Field "mass_g" (Some "2"); Field "E1" None]%string
           " E2"%string "3"%string [] [("E2", 3)]%string small_csv_row2_cells).
  - discriminate.
  - discriminate.
  - intros k' s' ([] & _).
Defined.

Lemma surplus_field_fails :
  cargar_tabla_mpe_csv float_of_digits strip_blanks
    [[Field "mass_g" (Some "1"); Field "E2" (Some "1"); Rest ["7"]]]%string
  = Raise TypeError.
Proof. reflexivity. Qed.

Lemma cargar_failure_reasons_witness :
  exists fields,
    In fields [[Field "mass_g" (Some "1"); Field "E2" (Some "1"); Rest ["7"]]]%string /\
    ((csv_get fields "mass_g" = None /\ TypeError = KeyError) \/
     (csv_get fields "mass_g" = Some None /\ TypeError = TypeError) \/
     ((exists surplus, In (Rest surplus) fields) /\ TypeError = TypeError) \/
     (exists s, csv_get fields "mass_g" = Some (Some s) /\
                float_of_digits s = Raise TypeError) \/
     (exists k s, loaded_cell strip_blanks fields k s /\
                  float_of_digits s = Raise TypeError)).
Proof.
  apply (cargar_failure_reasons float_of_digits strip_blanks
           [[Field "mass_g" (Some "1"); Field "E2" (Some "1"); Rest ["7"]]]%string
           TypeError surplus_field_fails).
Defined.

(** ** The command line *)

Lemma scan_only_domain_error mass_g us um tabla clases e :
  scan mass_g us um tabla clases = Raise e ->
  us <> None \/ um <> None -> e = math_domain_error.
Proof.
  intros H Hsup. induction clases as [|k rest IH]; cbn in H; [discriminate |].
  destruct (mpe_mg_para mass_g k tabla) as [[v|]|e'] eqn:E; cbn in H.
  - destruct um as [um|]; [|destruct us as [us|]; [|destruct Hsup; congruence]].
    + destruct (Rleb v um); [discriminate | auto].
    + destruct (Rleb (v / 1000 / sqrt 3) us); [discriminate | auto].
  - auto.
  - injection H as <-. eapply mpe_only_domain_error; eauto.
Qed.

(** With a threshold in hand, the selection stage ends with exit code 0 or
    with the math domain error of the lookup. *)
Lemma main_select_result mass_g us um tabla :
  us <> None \/ um <> None ->
  snd (main_select mass_g us um tabla) = Ok 0%Z \/
  snd (main_select mass_g us um tabla) = Raise math_domain_error.
Proof.
  intros Hsup. unfold main_select.
  destruct (seleccionar_clase_pesa mass_g us um tabla CLASSES_ORDER)
    as [[c|]|e] eqn:E.
  - destruct us, um; cbn; auto. destruct Hsup; congruence.
  - now left.
  - right. cbn. f_equal. unfold seleccionar_clase_pesa in E.
    destruct um, us; try (eapply scan_only_domain_error; [exact E |]);
      try (left; discriminate); try (right; discriminate).
    destruct Hsup; congruence.
Qed.

Lemma main_umbral_result mass_g us um tabla :
  snd (main_umbral mass_g us um tabla) = Ok 0%Z \/
  snd (main_umbral mass_g us um tabla) = Raise math_domain_error \/
  (us = None /\ um = None /\ snd (main_umbral mass_g us um tabla) = Ok 5%Z).
Proof.
  unfold main_umbral. destruct us as [us|], um as [um|]; try (right; right; now auto);
    (destruct (main_select_result mass_g
                 ltac:(first [exact (Some us) | exact None])
                 ltac:(first [exact (Some um) | exact None]) tabla) as [H | H];
     [first [left; discriminate | right; discriminate] | now left | right; now left]).
Qed.

Section MainProperties.

Variable float_of_str : string -> result R.
Variable strip : string -> string.

(** Once the file has loaded, [main] is its two stages in sequence. *)
Lemma main_stages a :
  loads float_of_str strip a ->
  exists tabla,
    (a_mpe_csv a = None -> tabla = None) /\
    (forall rows, a_mpe_csv a = Some rows ->
       exists t, cargar_tabla_mpe_csv float_of_str strip rows = Ok t /\ tabla = Some t) /\
    main float_of_str strip a =
      match main_mmin a with
      | (out, Some r) => (out, r)
      | (out, None) => let (out', r) := main_clase a tabla in (out ++ out', r)
      end.
Proof.
  unfold loads, main. destruct (a_mpe_csv a) as [rows|].
  - intros (t & Ht). exists (Some t). rewrite Ht. cbn [bind].
    split; [discriminate |]. split; [|reflexivity].
    intros rows' [= <-]. now exists t.
  - intros _. exists None. split; [reflexivity |]. split; [discriminate | reflexivity].
Qed.

(** The four ways of the minimum-mass stage. *)
Lemma main_mmin_cases a :
  (a_calc a = Clase /\ main_mmin a = ([], None)) \/
  (a_calc a <> Clase /\ a_s a = None /\
   main_mmin a = ([err_mmin_s], Some (Ok 2%Z))) \/
  (a_calc a <> Clase /\ a_rrel a = 0 /\ (exists s, a_s a = Some s) /\
   main_mmin a = ([], Some (Raise ZeroDivisionError))) \/
  (a_calc a <> Clase /\ a_rrel a <> 0 /\
   exists s, a_s a = Some s /\
     main_mmin a =
       ([out_mmin (a_k a * s_efectiva s (a_d a) true / a_rrel a)
           (a_k a) (a_rrel a) s (a_d a)], None)).
Proof.
  unfold main_mmin, masa_minima, fdiv.
  destruct (a_calc a); [| now left |];
    (right; destruct (a_s a) as [s|]; [|left; repeat split; discriminate];
     right; destruct (Reqb (a_rrel a) 0) eqn:E;
     [ left; apply Reqb_spec in E; repeat split; [discriminate | exact E | now exists s]
     | right; split; [discriminate |]; split;
       [intros H; now rewrite Reqb_true in E | now exists s] ]).
Qed.

(** The exit code of the class stage. *)
Lemma main_clase_result a tabla :
  (a_calc a = Mmin /\ snd (main_clase a tabla) = Ok 0%Z) \/
  (a_calc a <> Mmin /\ a_mass_g a = None /\ snd (main_clase a tabla) = Ok 3%Z) \/
  (a_calc a <> Mmin /\ a_mass_g a <> None /\
   a_umbral_std_g a = None /\ a_tur a <> None /\ (a_s a = None \/ a_d a = None) /\
   snd (main_clase a tabla) = Ok 4%Z) \/
  (a_calc a <> Mmin /\ a_mass_g a <> None /\
   a_umbral_std_g a = None /\ a_tur a = None /\ a_umbral_mpe_mg a = None /\
   snd (main_clase a tabla) = Ok 5%Z) \/
  (a_calc a <> Mmin /\ a_mass_g a <> None /\
   a_umbral_std_g a = None /\ a_tur a = Some 0 /\ a_s a <> None /\ a_d a <> None /\
   snd (main_clase a tabla) = Raise ZeroDivisionError) \/
  (a_calc a <> Mmin /\ a_mass_g a <> None /\
   (a_umbral_std_g a <> None \/
    (a_tur a = None /\ a_umbral_mpe_mg a <> None) \/
    exists tur, a_tur a = Some tur /\ tur <> 0 /\ a_s a <> None /\ a_d a <> None) /\
   (snd (main_clase a tabla) = Ok 0%Z \/
    snd (main_clase a tabla) = Raise math_domain_error)).
Proof.
  unfold main_clase.
  destruct (a_calc a) eqn:Ec; [now left | |];
    (right; destruct (a_mass_g a) as [mass_g|];
     [|left; repeat split; discriminate]; right;
     destruct (a_umbral_std_g a) as [us|];
     [ do 3 right; repeat split; try discriminate; [now left |];
       destruct (main_umbral_result mass_g (Some us) (a_umbral_mpe_mg a) tabla)
         as [H | [H | (H & _)]]; [now left | now right | discriminate]
     | destruct (a_tur a) as [tur|];
       [ destruct (a_s a) as [s|];
         [ destruct (a_d a) as [d|];
           [ unfold fdiv; destruct (Reqb tur 0) eqn:Et;
             [ apply Reqb_spec in Et; subst tur; do 2 right; left;
               repeat split; discriminate
             | do 3 right; repeat split; try discriminate;
               [ right; right; exists tur; repeat split; try discriminate;
                 intros ->; now rewrite Reqb_true in Et
               | destruct (main_umbral_result mass_g
                             (Some (sqrt (s ^ 2 + (d / sqrt 12) ^ 2) / tur))
                             (a_umbral_mpe_mg a) tabla)
                   as [H | [H | (H & _)]]; [now left | now right | discriminate] ] ]
           | left; repeat split; try discriminate; now right ]
         | left; repeat split; try discriminate; now left ]
       | destruct (a_umbral_mpe_mg a) as [um|] eqn:Em;
         [ do 3 right; repeat split; try discriminate;
           [ right; left; split; [reflexivity | discriminate]
           | destruct (main_umbral_result mass_g None (Some um) tabla)
               as [H | [H | (_ & H & _)]]; [now left | now right | discriminate] ]
         | right; left; repeat split; discriminate ] ] ]).
Qed.

End MainProperties.

Section MainOutcomes.

Variable float_of_str : string -> result R.
Variable strip : string -> string.

(** How a run that has loaded its file ends: in the minimum-mass stage, or
    as the class stage ends. *)
Lemma main_result a :
  loads float_of_str strip a ->
  (~ mmin_passes a /\ a_calc a <> Clase /\ a_s a = None /\
   snd (main float_of_str strip a) = Ok 2%Z) \/
  (~ mmin_passes a /\ a_calc a <> Clase /\ a_s a <> None /\ a_rrel a = 0 /\
   snd (main float_of_str strip a) = Raise ZeroDivisionError) \/
  (mmin_passes a /\
   exists tabla, snd (main float_of_str strip a) = snd (main_clase a tabla)).
Proof.
  intros Hl. destruct (main_stages float_of_str strip a Hl) as (tabla & _ & _ & ->).
  unfold mmin_passes.
  destruct (main_mmin_cases a)
    as [(Hc & ->) | [(Hc & Hs & ->) | [(Hc & Hr & (s & Hs) & ->) | (Hc & Hr & s & Hs & ->)]]].
  - right. right. split; [now left |]. exists tabla.
    now destruct (main_clase a tabla).
  - left. repeat split; auto.
    intros [H | (s & H & _)]; congruence.
  - right. left. repeat split; auto; [|congruence].
    intros [H | (s' & _ & H)]; congruence.
  - right. right. split; [right; now exists s |]. exists tabla.
    now destruct (main_clase a tabla).
Qed.

(** X20: the exit codes of a run whose file loads: 2 exactly when the
    minimum mass is asked for without [--s]; 3, 4 and 5 exactly when the
    minimum-mass stage is skipped or has printed its line and the class is
    asked for without [--mass-g] (3), with [--tur] and no direct standard
    threshold but without [--s] or [--d] (4), or with none of the three
    threshold options (5). *)
Theorem main_exit_codes :
  forall a,
    loads float_of_str strip a ->
    (snd (main float_of_str strip a) = Ok 2%Z
     <-> a_calc a <> Clase /\ a_s a = None) /\
    (snd (main float_of_str strip a) = Ok 3%Z
     <-> mmin_passes a /\ a_calc a <> Mmin /\ a_mass_g a = None) /\
    (snd (main float_of_str strip a) = Ok 4%Z
     <-> mmin_passes a /\ a_calc a <> Mmin /\ a_mass_g a <> None /\
         a_umbral_std_g a = None /\ a_tur a <> None /\
         (a_s a = None \/ a_d a = None)) /\
    (snd (main float_of_str strip a) = Ok 5%Z
     <-> mmin_passes a /\ a_calc a <> Mmin /\ a_mass_g a <> None /\
         a_umbral_std_g a = None /\ a_tur a = None /\ a_umbral_mpe_mg a = None).
Proof.
  intros a Hl.
  destruct (main_result a Hl)
    as [(Hn & Hc & Hs & ->) | [(Hn & Hc & Hs & Hr & ->) | (Hp & tabla & ->)]].
  - repeat split; try discriminate; try tauto.
  - repeat split; try discriminate; try tauto.
  - assert (Hnot2 : ~ (a_calc a <> Clase /\ a_s a = None)).
    { destruct Hp as [H | (s & H & _)]; intros (H1 & H2); congruence. }
    destruct (main_clase_result a tabla)
      as [(Hc & ->) | [(Hc & Hm & ->) | [(Hc & Hm & Hu & Ht & Hsd & ->)
         | [(Hc & Hm & Hu & Ht & Hmp & ->) | [(Hc & Hm & Hu & Ht & Hs & Hd & ->)
         | (Hc & Hm & Hsup & [-> | ->])]]]]];
      repeat split; try discriminate; try tauto;
      try (intros; exfalso; intuition congruence).
    all: intros (_ & _ & _ & Hu & Ht & X);
      destruct Hsup as [H | [(H & H') | (tur & H1 & H2 & H3 & H4)]]; try congruence;
      destruct X; congruence.
Qed.

End MainOutcomes.

Lemma main_exit_codes_witness :
  (snd (main float_of_digits strip_blanks args_example) = Ok 2%Z
   <-> a_calc args_example <> Clase /\ a_s args_example = None) /\
  (snd (main float_of_digits strip_blanks args_example) = Ok 3%Z
   <-> mmin_passes args_example /\ a_calc args_example <> Mmin /\
       a_mass_g args_example = None) /\
  (snd (main float_of_digits strip_blanks args_example) = Ok 4%Z
   <-> mmin_passes args_example /\ a_calc args_example <> Mmin /\
       a_mass_g args_example <> None /\
       a_umbral_std_g args_example = None /\ a_tur args_example <> None /\
       (a_s args_example = None \/ a_d args_example = None)) /\
  (snd (main float_of_digits strip_blanks args_example) = Ok 5%Z
   <-> mmin_passes args_example /\ a_calc args_example <> Mmin /\
       a_mass_g args_example <> None /\
       a_umbral_std_g args_example = None /\ a_tur args_example = None /\
       a_umbral_mpe_mg args_example = None).
Proof.
  apply (main_exit_codes float_of_digits strip_blanks args_example). exact I.
Defined.

Section MainBehaviour.

Variable float_of_str : string -> result R.
Variable strip : string -> string.

(** X21: when a run whose file loads returns, its exit code is 0, 2, 3, 4
    or 5; and the usage error of the selector is never raised, since [main]
    returns 5 before it calls the selector without a threshold. *)
Theorem main_codes_and_no_usage_error :
  forall a,
    loads float_of_str strip a ->
    (forall c, snd (main float_of_str strip a) = Ok c ->
               In c [0; 2; 3; 4; 5]%Z) /\
    snd (main float_of_str strip a) <> Raise usage_error.
Proof.
  intros a Hl.
  assert (H : (exists c, snd (main float_of_str strip a) = Ok c /\
                         In c [0; 2; 3; 4; 5]%Z) \/
              snd (main float_of_str strip a) = Raise ZeroDivisionError \/
              snd (main float_of_str strip a) = Raise math_domain_error).
  { destruct (main_result float_of_str strip a Hl)
      as [(_ & _ & _ & ->) | [(_ & _ & _ & _ & ->) | (_ & tabla & ->)]].
    - left. exists 2%Z. cbn. tauto.
    - right. now left.
    - destruct (main_clase_result a tabla)
        as [(_ & ->) | [(_ & _ & ->) | [(_ & _ & _ & _ & _ & ->)
           | [(_ & _ & _ & _ & _ & ->) | [(_ & _ & _ & _ & _ & _ & ->)
           | (_ & _ & _ & [-> | ->])]]]]].
      + left. exists 0%Z. cbn. tauto.
      + left. exists 3%Z. cbn. tauto.
      + left. exists 4%Z. cbn. tauto.
      + left. exists 5%Z. cbn. tauto.
      + right. now left.
      + left. exists 0%Z. cbn. tauto.
      + right. now right. }
  destruct H as [(c & -> & Hin) | [-> | ->]]; (split; [|discriminate]).
  - now intros c' [= <-].
  - discriminate.
  - discriminate.
Qed.

(** X22: a zero [--rrel] or a zero [--tur] ends the run with an uncaught
    [ZeroDivisionError] and no exit code: for [--s] and [--d] of a
    magnitude that [**] does not overflow on, and a file that loads, the
    run raises it when the minimum mass is asked for with [--s] and
    [--rrel 0], and when the class stage is reached with a mass, no direct
    standard threshold, [--s], [--d] and [--tur 0]. *)
Theorem main_zero_division :
  forall a,
    loads float_of_str strip a ->
    moderate (a_s a) -> moderate (a_d a) ->
    (a_calc a <> Clase /\ a_s a <> None /\ a_rrel a = 0) \/
    (mmin_passes a /\ a_calc a <> Mmin /\ a_mass_g a <> None /\
     a_umbral_std_g a = None /\ a_tur a = Some 0 /\
     a_s a <> None /\ a_d a <> None) ->
    snd (main float_of_str strip a) = Raise ZeroDivisionError.
Proof.
  intros a Hl _ _ Hcases.
  destruct (main_result float_of_str strip a Hl)
    as [(Hn & Hc & Hs & ->) | [(Hn & Hc & Hs & Hr & ->) | (Hp & tabla & ->)]].
  - destruct Hcases as [(_ & H & _) | (H & _)]; tauto.
  - reflexivity.
  - destruct Hcases as [(Hc & Hs & Hr) | (_ & Hc & Hm & Hu & Ht & Hs & Hd)].
    { destruct Hp as [H | (s & _ & H)]; congruence. }
    destruct (main_clase_result a tabla)
      as [(Hc' & _) | [(_ & Hm' & _) | [(_ & _ & _ & _ & Hsd & _)
         | [(_ & _ & _ & Ht' & _) | [(_ & _ & _ & _ & _ & _ & ->)
         | (_ & _ & Hsup & _)]]]]]; try congruence.
    + destruct Hsd; congruence.
    + destruct Hsup as [H | [(H & _) | (tur & E1 & E2 & _)]]; congruence.
Qed.

(** X23: in the mode [both] the minimum mass is printed before the class
    stage is checked: with [--s] and a non-zero [--rrel] its line is the
    first line of the run however the class stage ends, and without
    [--mass-g] the run prints it, then the error line, and returns 3. *)
Theorem main_both_prints_mmin_first :
  forall a s,
    loads float_of_str strip a ->
    a_calc a = Both -> a_s a = Some s -> a_rrel a <> 0 ->
    let mmin_line :=
      out_mmin (a_k a * s_efectiva s (a_d a) true / a_rrel a)
        (a_k a) (a_rrel a) s (a_d a) in
    (exists rest, fst (main float_of_str strip a) = mmin_line :: rest) /\
    (a_mass_g a = None ->
     main float_of_str strip a = ([mmin_line; err_clase_mass], Ok 3%Z)).
Proof.
  intros a s Hl Hc Hs Hr mmin_line.
  destruct (main_stages float_of_str strip a Hl) as (tabla & _ & _ & ->).
  destruct (main_mmin_cases a)
    as [(Hc' & _) | [(_ & Hs' & _) | [(_ & Hr' & _) | (_ & _ & s' & Hs' & ->)]]];
    try congruence.
  assert (s' = s) by congruence. subst s'. fold mmin_line.
  split.
  - destruct (main_clase a tabla) as [out' r]. now exists out'.
  - intros Hm. unfold main_clase. now rewrite Hc, Hm.
Qed.

End MainBehaviour.

Lemma main_codes_and_no_usage_error_witness :
  (forall c, snd (main float_of_digits strip_blanks args_example) = Ok c ->
             In c [0; 2; 3; 4; 5]%Z) /\
  snd (main float_of_digits strip_blanks args_example) <> Raise usage_error.
Proof.
  apply (main_codes_and_no_usage_error float_of_digits strip_blanks args_example).
  exact I.
Defined.

Lemma main_zero_division_witness :
  snd (main float_of_digits strip_blanks
         (mk_args Mmin (Some 0.005) (Some 0.01) 2 0 None None None None None))
  = Raise ZeroDivisionError.
Proof.
  apply (main_zero_division float_of_digits strip_blanks
           (mk_args Mmin (Some 0.005) (Some 0.01) 2 0 None None None None None) I).
  - change (Rabs 0.005 <= 10 ^ 150). rewrite Rabs_pos_eq by lra.
    apply Rle_trans with 1; [lra | apply pow_R1_Rle; lra].
  - change (Rabs 0.01 <= 10 ^ 150). rewrite Rabs_pos_eq by lra.
    apply Rle_trans with 1; [lra | apply pow_R1_Rle; lra].
  - left. cbn. repeat split; discriminate.
Defined.

Lemma main_both_prints_mmin_first_witness :
  let a := mk_args Both (Some 0.005) (Some 0.01) 2 0.001 None None None None None in
  let mmin_line :=
    out_mmin (2 * s_efectiva 0.005 (Some 0.01) true / 0.001) 2 0.001 0.005
      (Some 0.01) in
  (exists rest, fst (main float_of_digits strip_blanks a) = mmin_line :: rest) /\
  (a_mass_g a = None ->
   main float_of_digits strip_blanks a = ([mmin_line; err_clase_mass], Ok 3%Z)).
Proof.
  apply (main_both_prints_mmin_first float_of_digits strip_blanks
           (mk_args Both (Some 0.005) (Some 0.01) 2 0.001 None None None None None)
           0.005 I eq_refl eq_refl).
  cbn. lra.
Defined.

Section MainThresholds.

Variable float_of_str : string -> result R.
Variable strip : string -> string.

(** X24: [--tur] stands for a direct standard threshold of
    [s_efectiva(s, d, True) / TUR]: with [--s], [--d], a non-zero [--tur]
    and no [--umbral-std-g], the run is the run with that threshold given
    directly; and with [--umbral-std-g] given, [--tur] is ignored. *)
Theorem main_tur_is_a_std_threshold :
  (forall a s d tur,
     a_umbral_std_g a = None -> a_tur a = Some tur -> tur <> 0 ->
     a_s a = Some s -> a_d a = Some d ->
     main float_of_str strip a =
     main float_of_str strip
       (with_umbral_std_g a (Some (s_efectiva s (Some d) true / tur)))) /\
  (forall a u tur,
     a_umbral_std_g a = Some u ->
     main float_of_str strip a = main float_of_str strip (with_tur a tur)).
Proof.
  split.
  - intros a s d tur Hu Ht Hne Hs Hd.
    set (u := s_efectiva s (Some d) true / tur).
    assert (Hcl : forall tabla,
              main_clase a tabla = main_clase (with_umbral_std_g a (Some u)) tabla).
    { intros tabla. unfold main_clase, with_umbral_std_g.
      cbn [a_calc a_mass_g a_umbral_std_g a_tur a_s a_d a_umbral_mpe_mg].
      rewrite Hu, Ht, Hs, Hd. unfold fdiv. rewrite (Reqb_false tur 0 Hne).
      reflexivity. }
    unfold main.
    change (a_mpe_csv (with_umbral_std_g a (Some u))) with (a_mpe_csv a).
    change (main_mmin (with_umbral_std_g a (Some u))) with (main_mmin a).
    destruct (match a_mpe_csv a with
              | Some rows => t <- cargar_tabla_mpe_csv float_of_str strip rows ;; Ok (Some t)
              | None => Ok None
              end) as [tabla|e]; [|reflexivity].
    now rewrite Hcl.
  - intros [calc s0 d0 k rrel mass tur0 std mpe csv] u tur; cbn.
    intros ->. reflexivity.
Qed.

(** X25: with both a standard threshold and an MPE threshold the class is
    chosen on the MPE threshold alone, yet the recommendation is reported
    with the standard threshold: in the mode [clase], without a file, the
    run prints the class that the selector returns for [--umbral-mpe-mg]
    alone, labelled with [--umbral-std-g]. *)
Theorem main_reports_std_but_selects_on_mpe :
  forall a mass_g us um,
    a_calc a = Clase -> a_mpe_csv a = None ->
    a_mass_g a = Some mass_g ->
    a_umbral_std_g a = Some us -> a_umbral_mpe_mg a = Some um ->
    main float_of_str strip a =
    match seleccionar_clase_pesa mass_g None (Some um) None CLASSES_ORDER with
    | Ok (Some clase) => ([out_class mass_g clase (info_std us)], Ok 0%Z)
    | Ok None => ([out_no_class], Ok 0%Z)
    | Raise e => ([], Raise e)
    end.
Proof.
  intros a mass_g us um Hc Hcsv Hm Hus Hum.
  unfold main, main_mmin, main_clase. rewrite Hcsv, Hc, Hm, Hus, Hum.
  cbv beta iota. unfold main_umbral, main_select.
  replace (seleccionar_clase_pesa mass_g (Some us) (Some um) None CLASSES_ORDER)
    with (seleccionar_clase_pesa mass_g None (Some um) None CLASSES_ORDER)
    by (unfold seleccionar_clase_pesa; symmetry; apply scan_mpe_basis).
  destruct (seleccionar_clase_pesa mass_g None (Some um) None CLASSES_ORDER)
    as [[c|]|e]; reflexivity.
Qed.


(** X27: a file loads when every row has a mass that [float] accepts, no
    line has more fields than the header, and [float] accepts every class
    cell that is not blank; the table loaded holds each mass once. *)
Theorem cargar_loads_clean_rows :
  forall rows,
    (forall fields, In fields rows ->
       (exists m, row_mass float_of_str fields m) /\
       (forall surplus, ~ In (Rest surplus) fields) /\
       (forall k s, loaded_cell strip fields k s ->
                    exists v, float_of_str s = Ok v)) ->
    exists t, cargar_tabla_mpe_csv float_of_str strip rows = Ok t /\ dict_wf t.
Proof.
  intros rows Hclean.
  assert (Hok : forall t0, exists t, load_rows float_of_str strip rows t0 = Ok t).
  { induction rows as [|fields rows IH]; intros t0; cbn; [now exists t0 |].
    destruct (Hclean fields (or_introl eq_refl)) as ((m & s & Hs & Hm) & Hrest & Hcells).
    rewrite Hs, Hm. cbn [bind].
    destruct (load_cells float_of_str strip fields []) as [r|e] eqn:Er; cbn [bind].
    - apply IH. intros f Hf. apply Hclean. now right.
    - exfalso. destruct (load_cells_raises _ _ _ _ _ Er)
        as [((sp & Hin) & _) | (k & s' & Hc & He)].
      + exact (Hrest sp Hin).
      + destruct (Hcells k s' Hc) as (v & Hv). congruence. }
  destruct (Hok []) as (t & Ht). exists t. split; [exact Ht |].
  apply (load_rows_wf _ _ _ _ _ Ht). constructor.
Qed.

End MainThresholds.

Lemma main_tur_is_a_std_threshold_witness :
  main float_of_digits strip_blanks
    (mk_args Clase (Some 0.005) (Some 0.01) 2 0.001 (Some 2000) (Some 4) None None None)
  = main float_of_digits strip_blanks
      (with_umbral_std_g
         (mk_args Clase (Some 0.005) (Some 0.01) 2 0.001 (Some 2000) (Some 4) None None
            None)
         (Some (s_efectiva 0.005 (Some 0.01) true / 4))).
Proof.
  apply (proj1 (main_tur_is_a_std_threshold float_of_digits strip_blanks)
           (mk_args Clase (Some 0.005) (Some 0.01) 2 0.001 (Some 2000) (Some 4) None None
              None)
           0.005 0.01 4 eq_refl eq_refl ltac:(lra) eq_refl eq_refl).
Defined.

Lemma main_reports_std_but_selects_on_mpe_witness :
  main float_of_digits strip_blanks
    (mk_args Clase None None 2 0.001 (Some 2000) None (Some 1) (Some 60) None)
  = match seleccionar_clase_pesa 2000 None (Some 60) None CLASSES_ORDER with
    | Ok (Some clase) => ([out_class 2000 clase (info_std 1)], Ok 0%Z)
    | Ok None => ([out_no_class], Ok 0%Z)
    | Raise e => ([], Raise e)
    end.
Proof.
  apply (main_reports_std_but_selects_on_mpe float_of_digits strip_blanks
           (mk_args Clase None None 2 0.001 (Some 2000) None (Some 1) (Some 60) None)
           2000 1 60 eq_refl eq_refl eq_refl eq_refl eq_refl).
Defined.

Lemma cargar_loads_clean_rows_witness :
  exists t,
    cargar_tabla_mpe_csv float_of_digits strip_blanks
      [[Field "mass_g" (Some "1"); Field "E2" (Some "3")]]%string = Ok t /\
    dict_wf t.
Proof.
  apply (cargar_loads_clean_rows float_of_digits strip_blanks
           [[Field "mass_g" (Some "1"); Field "E2" (Some "3")]]%string).
  intros fields [<- | []]. split; [|split].
  - exists 1, "1"%string. split; reflexivity.
  - intros surplus [H | [H | []]]; discriminate.
  - intros k s ([H | [H | []]] & Hk & Hs).
    + injection H as <- <-. congruence.
    + injection H as <- <-. now exists 3.
Defined.
